(** * PodcastGPT: the streaming response engine, the conversation store
      and the session controller, embedded and verified.

    Sources embedded here:
    - [src/services/geminiService.ts]: the credential store and
      [generateStreamingResponse];
    - [services/conversationService.ts]: [updateConversationTitle] and
      [deleteConversation];
    - [src/pages/Index.tsx] and [src/components/ChatInput.tsx]:
      [updateConversationTitleWithFirstMessage] and the two [handleSubmit].

    How the program is read:
    - a JavaScript string is a sequence of UTF-16 code units, a code unit is
      an [N]; the stream reader hands byte chunks to a [TextDecoder] in
      streaming mode, and the engine below starts from the decoded chunks;
    - [JSON.parse], [trim], [split], [indexOf], [substring], [match] and
      [replace] are written out for the arguments the program gives them;
    - what the outside answers (the endpoint, the remote store, local
      storage) is an argument of the function that asks; a request the store
      reports as failed leaves its tables as they were;
    - what the page does between two suspensions of an [async] function is
      one step; a closure holds the state of the render in which the
      function was called. *)

From Stdlib Require Import NArith ZArith Lia Bool String Ascii.
From stdpp Require Import base option list sorting gmap.

Set Warnings "-register-all".

Local Open Scope N_scope.

(** ** JavaScript strings *)

Abbreviation str := (list N).

(** [lit] reads a literal; the double quote U+0022 is written as a backquote. *)
Fixpoint lit (s : string) : str :=
  match s with
  | EmptyString => []
  | String a s' =>
      (if Ascii.eqb a "`"%char then 34 else N_of_ascii a) :: lit s'
  end.

Definition LF : str := [10].

Definition str_eqb (a b : str) : bool := bool_decide (a = b).

Definition isEmpty (s : str) : bool :=
  match s with [] => true | _ => false end.

(** WhiteSpace and LineTerminator code units: what [String.prototype.trim]
    strips and what [\s] matches in a regular expression. *)
Definition isWhiteSpace (c : N) : bool :=
  (c =? 9) || (c =? 10) || (c =? 11) || (c =? 12) || (c =? 13) || (c =? 32)
  || (c =? 160) || (c =? 5760) || ((8192 <=? c) && (c <=? 8202))
  || (c =? 8232) || (c =? 8233) || (c =? 8239) || (c =? 8287)
  || (c =? 12288) || (c =? 65279).

Fixpoint trimStart (s : str) : str :=
  match s with
  | c :: t => if isWhiteSpace c then trimStart t else s
  | [] => []
  end.

Definition trimEnd (s : str) : str := rev (trimStart (rev s)).

Definition trim (s : str) : str := trimEnd (trimStart s).

(** [hay.startsWith(needle)]. *)
Fixpoint startsWith (needle hay : str) : bool :=
  match needle, hay with
  | [], _ => true
  | a :: n', b :: h' => (a =? b) && startsWith n' h'
  | _ :: _, [] => false
  end.

(** [hay.indexOf(needle)]: index of the first occurrence, [-1] when absent. *)
Fixpoint indexOf_from (i : Z) (hay needle : str) : Z :=
  if startsWith needle hay then i
  else match hay with
       | [] => (-1)%Z
       | _ :: t => indexOf_from (i + 1)%Z t needle
       end.

Definition indexOf (hay needle : str) : Z := indexOf_from 0%Z hay needle.

(** [s.substring(start)]: a negative start counts as 0, one past the end as
    the length. *)
Definition substring (s : str) (start : Z) : str :=
  drop (Z.to_nat (Z.max 0 start)) s.

(** [s.substring(a, b)]: both ends clamped to [0, length], swapped when
    [a > b]. *)
Definition substring2 (s : str) (a b : Z) : str :=
  let clamp z := Z.to_nat (Z.min (Z.max 0 z) (Z.of_nat (length s))) in
  let lo := Nat.min (clamp a) (clamp b) in
  let hi := Nat.max (clamp a) (clamp b) in
  take (hi - lo) (drop lo s).

(** [s.split(/,?\n/)].  At each position the pattern matches a comma
    followed by a line feed if it can, a line feed alone otherwise; the pieces
    between matches are returned, the empty ones included. *)
Fixpoint split_commaNewline (s : str) : list str :=
  match s with
  | [] => [[]]
  | c :: t =>
      if c =? 10 then [] :: split_commaNewline t
      else
        match t with
        | d :: t' =>
            if (c =? 44) && (d =? 10) then [] :: split_commaNewline t'
            else match split_commaNewline t with
                 | p :: ps => (c :: p) :: ps
                 | [] => [[c]]
                 end
        | [] => [[c]]
        end
  end.

(** ** JSON values and [JSON.parse] *)

(** A JSON number literal denotes [(-1)^neg * mant * 10^exp10]. *)
Record decimal := { neg : bool; mant : N; exp10 : Z }.

Inductive json :=
| JNull
| JBool (b : bool)
| JNum (d : decimal)
| JStr (s : str)
| JArr (l : list json)
| JObj (kvs : list (str * json)).

Inductive presult (A : Type) :=
| POk (a : A) (rest : str)
| PErr
| PFuel.
Arguments POk {A} a rest.
Arguments PErr {A}.
Arguments PFuel {A}.

Definition pmap {A B} (f : A -> B) (r : presult A) : presult B :=
  match r with
  | POk a rest => POk (f a) rest
  | PErr => PErr
  | PFuel => PFuel
  end.

(** JSON insignificant whitespace: tab, line feed, carriage return, space. *)
Definition isJsonWs (c : N) : bool :=
  (c =? 9) || (c =? 10) || (c =? 13) || (c =? 32).

Fixpoint skip_ws (s : str) : str :=
  match s with
  | c :: t => if isJsonWs c then skip_ws t else s
  | [] => []
  end.

Definition isDigit (c : N) : bool := (48 <=? c) && (c <=? 57).

Definition hexVal (c : N) : option N :=
  if isDigit c then Some (c - 48)
  else if (65 <=? c) && (c <=? 70) then Some (c - 55)
  else if (97 <=? c) && (c <=? 102) then Some (c - 87)
  else None.

Definition escapeChar (c : N) : option N :=
  if c =? 34 then Some 34          (* quotation mark *)
  else if c =? 92 then Some 92     (* reverse solidus *)
  else if c =? 47 then Some 47     (* solidus *)
  else if c =? 98 then Some 8      (* b: backspace *)
  else if c =? 102 then Some 12    (* f: form feed *)
  else if c =? 110 then Some 10    (* n: line feed *)
  else if c =? 114 then Some 13    (* r: carriage return *)
  else if c =? 116 then Some 9     (* t: tab *)
  else None.

(** The characters of a string literal after its opening quote, up to and
    including the closing quote. *)
Fixpoint parse_chars (s : str) : presult str :=
  match s with
  | [] => PErr
  | c :: t =>
      if c =? 34 then POk [] t
      else if c <? 32 then PErr
      else if c =? 92 then
        match t with
        | e :: t1 =>
            if e =? 117 then
              match t1 with
              | h1 :: h2 :: h3 :: h4 :: t2 =>
                  match hexVal h1, hexVal h2, hexVal h3, hexVal h4 with
                  | Some a, Some b, Some c', Some d =>
                      pmap (cons (4096 * a + 256 * b + 16 * c' + d))
                           (parse_chars t2)
                  | _, _, _, _ => PErr
                  end
              | _ => PErr
              end
            else
              match escapeChar e with
              | Some u => pmap (cons u) (parse_chars t1)
              | None => PErr
              end
        | [] => PErr
        end
      else pmap (cons c) (parse_chars t)
  end.

(** A maximal run of decimal digits: its value, its length, the rest. *)
Fixpoint digits (acc : N) (len : nat) (s : str) : N * nat * str :=
  match s with
  | c :: t => if isDigit c then digits (10 * acc + (c - 48)) (S len) t
              else (acc, len, s)
  | [] => (acc, len, [])
  end.

(** The exponent part, if there is one. *)
Definition parse_exp (s : str) : presult Z :=
  match s with
  | c :: t =>
      if (c =? 101) || (c =? 69) then
        let '(sgn, t1) :=
          match t with
          | p :: t' => if p =? 43 then (1%Z, t')
                       else if p =? 45 then ((-1)%Z, t')
                       else (1%Z, t)
          | [] => (1%Z, t)
          end in
        match digits 0 0 t1 with
        | (_, O, _) => PErr
        | (e, S _, rest) => POk (sgn * Z.of_N e)%Z rest
        end
      else POk 0%Z s
  | [] => POk 0%Z s
  end.

(** The fraction part, if there is one, appended to the integer digits. *)
Definition parse_frac (int : N) (s : str) : presult (N * nat) :=
  match s with
  | c :: t =>
      if c =? 46 then
        match digits int 0 t with
        | (_, O, _) => PErr
        | (m, S k, rest) => POk (m, S k) rest
        end
      else POk (int, O) s
  | [] => POk (int, O) s
  end.

(** The digits of a number literal, after its sign. *)
Definition parse_unsigned (sign : bool) (s1 : str) : presult decimal :=
  match s1 with
  | c :: t =>
      if negb (isDigit c) then PErr
      else
        let '(int, s2) :=
          if c =? 48 then (0, t)
          else let '(v, _, r) := digits 0 0 s1 in (v, r) in
        match parse_frac int s2 with
        | POk (m, k) s3 =>
            match parse_exp s3 with
            | POk e rest =>
                POk {| neg := sign; mant := m; exp10 := (e - Z.of_nat k)%Z |} rest
            | PErr => PErr
            | PFuel => PFuel
            end
        | PErr => PErr
        | PFuel => PFuel
        end
  | [] => PErr
  end.

(** A number literal: an optional minus sign; a single 0 or a digit run that
    does not start with 0; an optional fraction; an optional exponent. *)
Definition parse_number (s : str) : presult decimal :=
  match s with
  | c :: t => if c =? 45 then parse_unsigned true t else parse_unsigned false s
  | [] => PErr
  end.

Definition expect (word : str) (v : json) (s : str) : presult json :=
  if startsWith word s then POk v (drop (length word) s) else PErr.

(** Values, array elements and object members.  The fuel bounds the depth of
    the call chain; [JSON_parse] supplies enough of it. *)
Fixpoint parse_value (fuel : nat) (s : str) : presult json :=
  match fuel with
  | O => PFuel
  | S fuel' =>
      match skip_ws s with
      | [] => PErr
      | c :: t =>
          if c =? 34 then pmap JStr (parse_chars t)
          else if c =? 91 then
            match skip_ws t with
            | c' :: t' =>
                if c' =? 93 then POk (JArr []) t'
                else pmap JArr (parse_elements fuel' t)
            | [] => PErr
            end
          else if c =? 123 then
            match skip_ws t with
            | c' :: t' =>
                if c' =? 125 then POk (JObj []) t'
                else pmap JObj (parse_members fuel' t)
            | [] => PErr
            end
          else if c =? 116 then expect (lit "true") (JBool true) (c :: t)
          else if c =? 102 then expect (lit "false") (JBool false) (c :: t)
          else if c =? 110 then expect (lit "null") JNull (c :: t)
          else pmap JNum (parse_number (c :: t))
      end
  end
with parse_elements (fuel : nat) (s : str) : presult (list json) :=
  match fuel with
  | O => PFuel
  | S fuel' =>
      match parse_value fuel' s with
      | POk v rest =>
          match skip_ws rest with
          | c :: t =>
              if c =? 44 then pmap (cons v) (parse_elements fuel' t)
              else if c =? 93 then POk [v] t
              else PErr
          | [] => PErr
          end
      | PErr => PErr
      | PFuel => PFuel
      end
  end
with parse_members (fuel : nat) (s : str) : presult (list (str * json)) :=
  match fuel with
  | O => PFuel
  | S fuel' =>
      match skip_ws s with
      | q :: t =>
          if q =? 34 then
            match parse_chars t with
            | POk k rest =>
                match skip_ws rest with
                | colon :: t1 =>
                    if colon =? 58 then
                      match parse_value fuel' t1 with
                      | POk v rest' =>
                          match skip_ws rest' with
                          | c :: t2 =>
                              if c =? 44 then
                                pmap (cons (k, v)) (parse_members fuel' t2)
                              else if c =? 125 then POk [(k, v)] t2
                              else PErr
                          | [] => PErr
                          end
                      | PErr => PErr
                      | PFuel => PFuel
                      end
                    else PErr
                | [] => PErr
                end
            | PErr => PErr
            | PFuel => PFuel
            end
          else PErr
      | [] => PErr
      end
  end.

(** [JSON.parse(s)]: [None] stands for the [SyntaxError] it throws. *)
Definition JSON_parse (s : str) : option json :=
  match parse_value (2 * length s + 1) s with
  | POk v rest => if isEmpty (skip_ws rest) then Some v else None
  | _ => None
  end.

(** ** Property access and truthiness *)

(** A JavaScript value as the engine sees it: [undefined] or a parsed JSON
    value. *)
Inductive jsval :=
| Undefined
| Val (j : json).

(** The result of evaluating an expression: a value, or a [TypeError]. *)
Inductive completion (A : Type) :=
| Normal (a : A)
| TypeError.
Arguments Normal {A} a.
Arguments TypeError {A}.

(** The property keys the engine reads.  None of them is defined on the
    prototypes of strings, numbers, booleans, arrays or plain objects. *)
Inductive pkey := K_candidates | K_0 | K_content | K_parts | K_text.

Definition key_name (k : pkey) : str :=
  match k with
  | K_candidates => lit "candidates"
  | K_0 => lit "0"
  | K_content => lit "content"
  | K_parts => lit "parts"
  | K_text => lit "text"
  end.

(** The own property of a parsed object: of duplicated keys the last wins. *)
Fixpoint own_property (k : str) (kvs : list (str * json)) : jsval :=
  match kvs with
  | [] => Undefined
  | (k', v) :: rest =>
      match own_property k rest with
      | Val w => Val w
      | Undefined => if str_eqb k k' then Val v else Undefined
      end
  end.

(** [base.k] and [base[0]]. *)
Definition getProp (base : jsval) (k : pkey) : completion jsval :=
  match base with
  | Undefined => TypeError
  | Val JNull => TypeError
  | Val (JBool _) => Normal Undefined
  | Val (JNum _) => Normal Undefined
  | Val (JStr s) =>
      match k, s with
      | K_0, c :: _ => Normal (Val (JStr [c]))
      | _, _ => Normal Undefined
      end
  | Val (JArr l) =>
      match k, l with
      | K_0, v :: _ => Normal (Val v)
      | _, _ => Normal Undefined
      end
  | Val (JObj kvs) => Normal (own_property (key_name k) kvs)
  end.

(** The double nearest to a nonzero decimal is zero exactly when the decimal
    is at most [2^-1075] in magnitude. *)
Definition isZero (d : decimal) : bool :=
  (mant d =? 0)
  || ((exp10 d <? 0)%Z
      && (Z.of_N (mant d) * 2 ^ 1075 <=? 10 ^ (- exp10 d))%Z).

(** [ToBoolean]. *)
Definition truthy (v : jsval) : bool :=
  match v with
  | Undefined => false
  | Val JNull => false
  | Val (JBool b) => b
  | Val (JNum d) => negb (isZero d)
  | Val (JStr s) => negb (isEmpty s)
  | Val (JArr _) => true
  | Val (JObj _) => true
  end.

(** [a && rest]: the value of [a] when it is falsy, of [rest] otherwise. *)
Definition andThen (a : completion jsval)
    (rest : jsval -> completion jsval) : completion jsval :=
  match a with
  | TypeError => TypeError
  | Normal v => if truthy v then rest v else Normal v
  end.

Definition bind {A B} (a : completion A) (f : A -> completion B) : completion B :=
  match a with
  | TypeError => TypeError
  | Normal v => f v
  end.

(** The guard of the engine:
    [o.candidates && o.candidates[0] && o.candidates[0].content &&
     o.candidates[0].content.parts && o.candidates[0].content.parts[0].text]. *)
Definition text_guard (o : json) : completion jsval :=
  andThen (getProp (Val o) K_candidates) (fun candidates =>
  andThen (getProp candidates K_0) (fun c0 =>
  andThen (getProp c0 K_content) (fun content =>
  andThen (getProp content K_parts) (fun parts =>
  bind (getProp parts K_0) (fun p0 => getProp p0 K_text))))).

(** Whether [ToString v] is the empty string.  An array joins the strings of
    its elements with commas, [null] counting as empty. *)
Fixpoint toString_isEmpty (v : json) : bool :=
  match v with
  | JStr s => isEmpty s
  | JArr [] => true
  | JArr [JNull] => true
  | JArr [x] => toString_isEmpty x
  | _ => false
  end.

(** Whether [ToString v] throws a [TypeError]: a parsed object that has an
    own property [toString] hides the method of its prototype behind a value
    that cannot be called; an array asks each of its elements. *)
Fixpoint toString_typeError (v : json) : bool :=
  match v with
  | JObj kvs => existsb (fun kv => str_eqb (fst kv) (lit "toString")) kvs
  | JArr l => existsb toString_typeError l
  | _ => false
  end.

(** How deep the arrays of a value are nested: [ToString] of an array calls
    [join], which calls [ToString] on every element, so the calls nest as
    deep as the arrays do. *)
Fixpoint array_depth (v : json) : nat :=
  match v with
  | JArr l => S (list_max (map array_depth l))
  | _ => O
  end.

(** The runtime the program runs on.  [ToString] of arrays nested deeply
    enough (some thousands of levels) exhausts the call stack, and the
    runtime raises a [RangeError]; for which values it does so is the
    runtime's business, not the program's: [stack_exhausted v] tells
    whether [ToString v] ends that way where [generateStreamingResponse]
    evaluates [responseText += textChunk]. *)
Class runtime := { stack_exhausted : json -> bool }.

(** A runtime whose [ToString] goes [n] arrays deep and no further. *)
Definition depth_limited (n : nat) : runtime :=
  {| stack_exhausted := fun v => (n <? array_depth v)%nat |}.

Definition sample_runtime : runtime := depth_limited 1000.

Section Runtime.

Context {rt : runtime}.

(** Whether [ToString v] throws: the [TypeError] above, or, for an array,
    the [RangeError] of the runtime.  Strings, numbers, booleans and [null]
    convert without a call, and an object is converted by the one call of
    the [toString] of its prototype. *)
Definition toString_throws (v : json) : bool :=
  toString_typeError v
  || match v with
     | JArr _ => stack_exhausted v
     | _ => false
     end.

(** ** The incremental parse loop of [generateStreamingResponse] *)

Inductive event :=
| Toast (msg : str)
| Fetch (apiKey : str) (prompt : str)
| OnChunk (v : json).

(** [responseText] is only ever tested for emptiness; it is kept as the list
    of the values appended to it, each of which [+=] turns into a string. *)
Record stream_state := {
  fullJsonStr : str;
  responseText : list json;
  trace : list event
}.

Definition responseText_isEmpty (st : stream_state) : bool :=
  forallb toString_isEmpty (responseText st).

(** The fragments handed to [onChunk], in order. *)
Definition fragments (tr : list event) : list json :=
  omap (fun e => match e with OnChunk v => Some v | _ => None end) tr.

(** One iteration of the [for] loop, on [jsonObjects[i]] with
    [n = jsonObjects.length].  The inner [catch] takes the [SyntaxError] of
    [JSON.parse], the [TypeError] of the guard and the [TypeError] or
    [RangeError] of [responseText += textChunk] alike: the state is left as
    it was, and [onChunk] is not called.  [onChunk] is a parameter of the
    function: a call of it is recorded in the trace and taken to return. *)
Definition for_body (n : nat) (st : stream_state) (i : nat) (line : str)
    : stream_state :=
  let jsonStr := trim line in
  if isEmpty jsonStr then st
  else
    match JSON_parse jsonStr with
    | None => st
    | Some jsonObject =>
        match text_guard jsonObject with
        | TypeError => st
        | Normal Undefined => st
        | Normal (Val textChunk) =>
            if truthy (Val textChunk) && negb (toString_throws textChunk) then
              let processedLength :=
                (Z.of_nat (length jsonStr)
                 + (if Z.of_nat i <? Z.of_nat n - 1 then 1 else 0))%Z in
              {| fullJsonStr :=
                   substring (fullJsonStr st)
                     (indexOf (fullJsonStr st) jsonStr + processedLength)%Z;
                 responseText := responseText st ++ [textChunk];
                 trace := trace st ++ [OnChunk textChunk] |}
            else st
        end
    end.

Fixpoint for_loop (n : nat) (st : stream_state) (i : nat) (lines : list str)
    : stream_state :=
  match lines with
  | [] => st
  | line :: rest => for_loop n (for_body n st i line) (S i) rest
  end.

(** The candidate fragments of a buffer. *)
Definition jsonObjects_of (buf : str) : list str :=
  List.filter (fun line => negb (isEmpty (trim line))) (split_commaNewline buf).

(** [fullJsonStr += chunk]. *)
Definition received (st : stream_state) (chunk : str) : stream_state :=
  {| fullJsonStr := fullJsonStr st ++ chunk;
     responseText := responseText st;
     trace := trace st |}.

(** One pass of the [while] loop: a read that delivered [chunk]. *)
Definition process_chunk (st : stream_state) (chunk : str) : stream_state :=
  let st1 := received st chunk in
  let jsonObjects := jsonObjects_of (fullJsonStr st1) in
  for_loop (length jsonObjects) st1 0 jsonObjects.

Definition initial_stream : stream_state :=
  {| fullJsonStr := []; responseText := []; trace := [] |}.

(** The whole [while] loop, over the chunks read until [done]. *)
Definition parse_loop (chunks : list str) : stream_state :=
  fold_left process_chunk chunks initial_stream.

(** ** The salvage pass *)

Definition dquote : N := 34.

Definition text_key : str := lit "`text`".

(** The salvage pattern, with the double quote written as a backquote, is
    [/`text`\s*:\s*`([^`]+)`/g]; its opening part is [/`text`\s*:\s*`/].
    No code unit that [\s] matches is a colon or a double quote, and the
    bracket excludes exactly the double quote, so the greedy match is the
    only one a backtracking matcher can find at a given position. *)

(** The length of the match of the opening part at the start of [s]. *)
Definition match_prefix (s : str) : option nat :=
  if startsWith text_key s then
    let s1 := drop (length text_key) s in
    let s2 := trimStart s1 in
    match s2 with
    | c :: s3 =>
        if c =? 58 then
          let s4 := trimStart s3 in
          match s4 with
          | q :: s5 =>
              if q =? dquote then Some (length s - length s5)%nat else None
          | [] => None
          end
        else None
    | [] => None
    end
  else None.

Fixpoint notQuote_run (s : str) : nat :=
  match s with
  | c :: t => if c =? dquote then O else S (notQuote_run t)
  | [] => O
  end.

(** The length of the match of the whole pattern at the start of [s]. *)
Definition match_text (s : str) : option nat :=
  match match_prefix s with
  | Some p =>
      let body := drop p s in
      let k := notQuote_run body in
      match k, drop k body with
      | S _, q :: _ => Some (p + k + 1)%nat
      | _, _ => None
      end
  | None => None
  end.

(** [s.match(pattern)]: the matches from left to right; a match resumes the
    search at its end.  [skip] counts the code units still inside the
    previous match. *)
Fixpoint matches_from (skip : nat) (s : str) : list str :=
  match s with
  | [] => []
  | _ :: t =>
      match skip with
      | S k => matches_from k t
      | O =>
          match match_text s with
          | Some len => take len s :: matches_from (len - 1) t
          | None => matches_from O t
          end
      end
  end.

Definition textMatches (buf : str) : list str := matches_from O buf.

(** [m.replace(opening part, '')]: the leftmost match is removed. *)
Fixpoint remove_prefix_match (m : str) : str :=
  match match_prefix m with
  | Some len => drop len m
  | None =>
      match m with
      | c :: t => c :: remove_prefix_match t
      | [] => []
      end
  end.

(** [m.replace(/`$/, '')]: a double quote that ends the string is removed. *)
Fixpoint remove_final_quote (m : str) : str :=
  match m with
  | [] => []
  | c :: t =>
      if (c =? dquote) && isEmpty t then []
      else c :: remove_final_quote t
  end.

Definition salvage_text (m : str) : str :=
  remove_final_quote (remove_prefix_match m).

Definition salvage_emit (st : stream_state) (m : str) : stream_state :=
  let text := salvage_text m in
  {| fullJsonStr := fullJsonStr st;
     responseText := responseText st ++ [JStr text];
     trace := trace st ++ [OnChunk (JStr text)] |}.

(** After the loop: [if (!responseText) { ... }]. *)
Definition salvage (st : stream_state) : stream_state :=
  if responseText_isEmpty st then
    fold_left salvage_emit (textMatches (fullJsonStr st)) st
  else st.

(** ** The fallback notice *)

Definition fallbackResponse : str :=
  lit "I'm sorry, but I couldn't generate a proper response. Please try again or check your API key.".

(** [if (responseText.length === 0) { ... }]. *)
Definition fallback (st : stream_state) : stream_state :=
  if responseText_isEmpty st then
    {| fullJsonStr := fullJsonStr st;
       responseText := responseText st;
       trace := trace st ++ [Toast (lit "Received empty response from API");
                             OnChunk (JStr fallbackResponse)] |}
  else st.

(** The stream processing of [generateStreamingResponse], from the first
    read to the end of the [try] block. *)
Definition process_stream (chunks : list str) : stream_state :=
  fallback (salvage (parse_loop chunks)).

(** ** The credential store *)

(** [GEMINI_API_KEY] is the module variable; the other two fields are what
    the outside answers: [getDefaultApiKey()] (the [default_api_keys] row,
    [null] on any error) and [localStorage.getItem('gemini_api_key')]. *)
Record credential_store := {
  GEMINI_API_KEY : str;
  default_api_key : option str;
  stored_key : option str
}.

Definition cache_key (w : credential_store) (k : str) : credential_store :=
  {| GEMINI_API_KEY := k;
     default_api_key := default_api_key w;
     stored_key := stored_key w |}.

(** A string or [null] is truthy when it is a non-empty string. *)
Definition nonEmptyKey (o : option str) : option str :=
  match o with
  | Some k => if isEmpty k then None else Some k
  | None => None
  end.

Definition getApiKey (w : credential_store) : str * credential_store :=
  if isEmpty (GEMINI_API_KEY w) then
    match nonEmptyKey (default_api_key w) with
    | Some dbKey => (dbKey, cache_key w dbKey)
    | None =>
        match nonEmptyKey (stored_key w) with
        | Some storedKey => (storedKey, cache_key w storedKey)
        | None => (GEMINI_API_KEY w, w)
        end
    end
  else (GEMINI_API_KEY w, w).

Definition hasApiKey (w : credential_store) : bool :=
  negb (isEmpty (fst (getApiKey w))).

(** [setApiKey(key)] writes the module variable and local storage. *)
Definition setApiKey (w : credential_store) (key : str) : credential_store :=
  {| GEMINI_API_KEY := key;
     default_api_key := default_api_key w;
     stored_key := Some key |}.

(** ** [generateStreamingResponse] *)

(** What the generation endpoint answers to the request: no answer at all,
    a status that is not a success, an answer without a body, a body read
    to its end, a body whose reading fails after some chunks. *)
Inductive response :=
| NetworkError (message : str)
| NotOk (errorMessage : str)
| NoBody
| Body (chunks : list str)
| BrokenBody (chunks : list str) (message : str).

(** How the returned promise settles. *)
Inductive settled :=
| Resolved
| Rejected (message : str).

Definition failed_prefix : str := lit "Failed to get response: ".

(** Of the request, [Fetch] records the credential in the URL and the
    prompt; the rest of the body (system instruction, history window,
    generation parameters) does not bear on what follows. *)
Definition generateStreamingResponse (w : credential_store) (prompt : str)
    (answer : response)
    : settled * list event * credential_store :=
  let '(apiKey, w') := getApiKey w in
  if isEmpty apiKey then
    (Rejected (lit "API key not set"),
     [Toast (lit "Please set your Gemini API key first")], w')
  else
    match answer with
    | NetworkError m =>
        (Rejected m, [Fetch apiKey prompt; Toast (failed_prefix ++ m)], w')
    | NotOk m =>
        (Rejected m,
         [Fetch apiKey prompt; Toast (lit "Failed to get response from Gemini API");
          Toast (failed_prefix ++ m)], w')
    | NoBody =>
        (Rejected (lit "Response body is empty"),
         [Fetch apiKey prompt; Toast (lit "Response body is empty");
          Toast (failed_prefix ++ lit "Response body is empty")], w')
    | Body chunks =>
        (Resolved, Fetch apiKey prompt :: trace (process_stream chunks), w')
    | BrokenBody chunks m =>
        (Rejected m,
         Fetch apiKey prompt :: trace (parse_loop chunks)
         ++ [Toast (failed_prefix ++ m)], w')
    end.

(** The fragments a call hands to its callback, in order. *)
Definition emitted_by (w : credential_store) (prompt : str) (answer : response)
    : list json :=
  fragments (generateStreamingResponse w prompt answer).1.2.

(** ** The conversation store *)

Inductive role := user | assistant.

Record conversation_row := {
  title : str;
  user_id : N;
  created_at : N;
  updated_at : N
}.

Record message_row := {
  conversation_id : N;
  row_role : role;
  row_content : str;
  row_timestamp : N
}.

(** The remote tables: [conversations] keyed by its [id] column, and
    [messages]. *)
Record database := {
  conversations : gmap N conversation_row;
  messages_tbl : list message_row
}.

(** A request sent to the remote store, and whether the store reports an
    error for it.  A request that fails leaves the tables as they are. *)
Inductive request :=
| DeleteMessages (conversation : N)
| DeleteConversation (id : N)
| UpdateConversation (id : N) (new_title : str) (now : N).

Inductive reply := Succeeds | Fails.

Definition apply_request (rq : request) (db : database) : database :=
  match rq with
  | DeleteMessages c =>
      {| conversations := conversations db;
         messages_tbl :=
           List.filter (fun m => negb (conversation_id m =? c)) (messages_tbl db) |}
  | DeleteConversation c =>
      {| conversations := delete c (conversations db);
         messages_tbl := messages_tbl db |}
  | UpdateConversation c t now =>
      {| conversations :=
           alter (fun r => {| title := t; user_id := user_id r;
                              created_at := created_at r; updated_at := now |})
                 c (conversations db);
         messages_tbl := messages_tbl db |}
  end.

Inductive store_event :=
| Sent (rq : request) (r : reply)
| ToastError (msg : str).

Definition execute (rq : request) (r : reply) (db : database) : database :=
  match r with
  | Succeeds => apply_request rq db
  | Fails => db
  end.

(** The tables after the requests of a log have been served. *)
Definition replay (log : list store_event) (db : database) : database :=
  fold_left (fun d e => match e with
                        | Sent rq r => execute rq r d
                        | ToastError _ => d
                        end) log db.

(** [updateConversationTitle(id, title)], called at instant [now]. *)
Definition updateConversationTitle (db : database) (now : N) (r : reply)
    (id : N) (new_title : str) : bool * database * list store_event :=
  let rq := UpdateConversation id new_title now in
  match r with
  | Succeeds => (true, execute rq Succeeds db, [Sent rq Succeeds])
  | Fails =>
      (false, db,
       [Sent rq Fails; ToastError (lit "Failed to update conversation")])
  end.

(** [deleteConversation(id)]; [r1] and [r2] are the store's replies to the
    first and to the second request. *)
Definition deleteConversation (db : database) (r1 r2 : reply) (id : N)
    : bool * database * list store_event :=
  match r1 with
  | Fails =>
      (false, db,
       [Sent (DeleteMessages id) Fails;
        ToastError (lit "Failed to delete conversation")])
  | Succeeds =>
      let db1 := execute (DeleteMessages id) Succeeds db in
      match r2 with
      | Fails =>
          (false, db1,
           [Sent (DeleteMessages id) Succeeds;
            Sent (DeleteConversation id) Fails;
            ToastError (lit "Failed to delete conversation")])
      | Succeeds =>
          (true, execute (DeleteConversation id) Succeeds db1,
           [Sent (DeleteMessages id) Succeeds;
            Sent (DeleteConversation id) Succeeds])
      end
  end.

(** ** The session controller ([Index.tsx]) *)

(** The title computed by [updateConversationTitleWithFirstMessage]. *)
Definition firstMessageTitle (content : str) : str :=
  if (30 <? length content)%nat
  then substring2 content 0 30 ++ lit "..."
  else content.

Definition updateConversationTitleWithFirstMessage (db : database) (now : N)
    (r : reply) (id : N) (content : str) : bool * database * list store_event :=
  updateConversationTitle db now r id (firstMessageTitle content).

Record Message := {
  msg_id : N;
  msg_role : role;
  msg_content : str;
  msg_timestamp : N
}.

(** The React state of the page. *)
Record ui_state := {
  messages : list Message;
  isProcessing : bool;
  isTyping : bool;
  apiKeyModalOpen : bool;
  currentResponseId : option N;
  conversationId : option N;
  refreshSidebarTrigger : nat
}.

(** Where a running [handleSubmit] is suspended. *)
Inductive pc :=
| AwaitHasApiKey
| AwaitCreateConversation
| AwaitSaveUserMessage
| AwaitUpdateTitle
| AwaitStream
| AwaitSaveAssistant.

(** A running call of [handleSubmit]: its argument, the state its closure
    captured ([conversationId], [messages.length]) and its locals. *)
Record invocation := {
  inv_content : str;
  inv_conversationId : option N;
  inv_messages_length : nat;
  inv_pc : pc;
  inv_aiMessage : Message;
  inv_fullResponse : str
}.

(** What the page calls, in order. *)
Inductive call :=
| Call_hasApiKey
| Call_createConversation
| Call_saveMessage (conversation : N) (m : Message)
| Call_updateConversationTitle (conversation : N) (new_title : str)
| Call_generateStreamingResponse (prompt : str)
| Call_loadUserInterests
| Call_toastError (msg : str).

(** [next_uuid] stands for [uuidv4()], [clock] for [new Date()]. *)
Record session := {
  ui : ui_state;
  inflight : list invocation;
  calls : list call;
  next_uuid : N;
  clock : N
}.

Definition with_ui (s : session) (u : ui_state) : session :=
  {| ui := u; inflight := inflight s; calls := calls s;
     next_uuid := next_uuid s; clock := clock s |}.

Definition with_call (s : session) (c : call) : session :=
  {| ui := ui s; inflight := inflight s; calls := calls s ++ [c];
     next_uuid := next_uuid s; clock := clock s |}.

Definition fresh_uuid (s : session) : session :=
  {| ui := ui s; inflight := inflight s; calls := calls s;
     next_uuid := next_uuid s + 1; clock := clock s |}.

Definition setMessages (f : list Message -> list Message) (u : ui_state) : ui_state :=
  {| messages := f (messages u); isProcessing := isProcessing u;
     isTyping := isTyping u; apiKeyModalOpen := apiKeyModalOpen u;
     currentResponseId := currentResponseId u;
     conversationId := conversationId u;
     refreshSidebarTrigger := refreshSidebarTrigger u |}.

Definition setBusy (b : bool) (u : ui_state) : ui_state :=
  {| messages := messages u; isProcessing := b; isTyping := b;
     apiKeyModalOpen := apiKeyModalOpen u;
     currentResponseId := currentResponseId u;
     conversationId := conversationId u;
     refreshSidebarTrigger := refreshSidebarTrigger u |}.

Definition setApiKeyModalOpen (b : bool) (u : ui_state) : ui_state :=
  {| messages := messages u; isProcessing := isProcessing u;
     isTyping := isTyping u; apiKeyModalOpen := b;
     currentResponseId := currentResponseId u;
     conversationId := conversationId u;
     refreshSidebarTrigger := refreshSidebarTrigger u |}.

Definition setCurrentResponseId (r : option N) (u : ui_state) : ui_state :=
  {| messages := messages u; isProcessing := isProcessing u;
     isTyping := isTyping u; apiKeyModalOpen := apiKeyModalOpen u;
     currentResponseId := r;
     conversationId := conversationId u;
     refreshSidebarTrigger := refreshSidebarTrigger u |}.

Definition setConversationId (c : option N) (u : ui_state) : ui_state :=
  {| messages := messages u; isProcessing := isProcessing u;
     isTyping := isTyping u; apiKeyModalOpen := apiKeyModalOpen u;
     currentResponseId := currentResponseId u;
     conversationId := c;
     refreshSidebarTrigger := refreshSidebarTrigger u |}.

Definition bumpRefreshSidebarTrigger (u : ui_state) : ui_state :=
  {| messages := messages u; isProcessing := isProcessing u;
     isTyping := isTyping u; apiKeyModalOpen := apiKeyModalOpen u;
     currentResponseId := currentResponseId u;
     conversationId := conversationId u;
     refreshSidebarTrigger := S (refreshSidebarTrigger u) |}.

Definition at_pc (inv : invocation) (p : pc) : invocation :=
  {| inv_content := inv_content inv;
     inv_conversationId := inv_conversationId inv;
     inv_messages_length := inv_messages_length inv;
     inv_pc := p;
     inv_aiMessage := inv_aiMessage inv;
     inv_fullResponse := inv_fullResponse inv |}.

(** The [finally] block. *)
Definition finally (s : session) : session := with_ui s (setBusy false (ui s)).

(** From [setIsProcessing(true)] to the call of [generateStreamingResponse]. *)
Definition start_streaming (s : session) (inv : invocation)
    : session * option invocation :=
  let aiMessage := {| msg_id := next_uuid s; msg_role := assistant;
                      msg_content := []; msg_timestamp := clock s |} in
  let u := setMessages (fun prev => prev ++ [aiMessage])
             (setCurrentResponseId (Some (next_uuid s)) (setBusy true (ui s))) in
  (with_call (fresh_uuid (with_ui s u))
     (Call_generateStreamingResponse (inv_content inv)),
   Some {| inv_content := inv_content inv;
           inv_conversationId := inv_conversationId inv;
           inv_messages_length := inv_messages_length inv;
           inv_pc := AwaitStream;
           inv_aiMessage := aiMessage;
           inv_fullResponse := [] |}).

(** From the creation of [userMessage] to the next suspension. *)
Definition after_conversation (s : session) (inv : invocation)
    : session * option invocation :=
  let userMessage := {| msg_id := next_uuid s; msg_role := user;
                        msg_content := inv_content inv;
                        msg_timestamp := clock s |} in
  let s1 := fresh_uuid
              (with_ui s (setMessages (fun prev => prev ++ [userMessage]) (ui s))) in
  match inv_conversationId inv with
  | Some c =>
      (with_call s1 (Call_saveMessage c userMessage),
       Some (at_pc inv AwaitSaveUserMessage))
  | None => start_streaming s1 inv
  end.

(** After the stream and the last save: the end of the [try] block, then
    [finally]. *)
Definition finish (s : session) : session :=
  finally (with_call (with_ui s (setCurrentResponseId None (ui s)))
             Call_loadUserInterests).

(** What an awaited call hands back. *)
Inductive result :=
| R_hasApiKey (hasKey : bool)
| R_createConversation (newConversationId : option N)
| R_saveMessage (ok : bool)
| R_updateConversationTitle (ok : bool)
| R_stream (s : settled).

(** [handleSubmit] resumed with the result of the call it awaits, run to its
    next suspension ([Some]) or to its end ([None]). *)
Definition resume (s : session) (inv : invocation) (r : result)
    : session * option invocation :=
  match inv_pc inv, r with
  | AwaitHasApiKey, R_hasApiKey hasKey =>
      if hasKey then
        match inv_conversationId inv with
        | None =>
            (with_call s Call_createConversation,
             Some (at_pc inv AwaitCreateConversation))
        | Some _ => after_conversation s inv
        end
      else (with_ui s (setApiKeyModalOpen true (ui s)), None)
  | AwaitCreateConversation, R_createConversation None =>
      (finally (with_call s (Call_toastError (lit "Failed to create conversation"))),
       None)
  | AwaitCreateConversation, R_createConversation (Some newConversationId) =>
      after_conversation
        (with_ui s (setConversationId (Some newConversationId) (ui s))) inv
  | AwaitSaveUserMessage, R_saveMessage _ =>
      match inv_conversationId inv, inv_messages_length inv with
      | Some c, O =>
          (with_call s
             (Call_updateConversationTitle c (firstMessageTitle (inv_content inv))),
           Some (at_pc inv AwaitUpdateTitle))
      | _, _ => start_streaming s inv
      end
  | AwaitUpdateTitle, R_updateConversationTitle _ =>
      start_streaming (with_ui s (bumpRefreshSidebarTrigger (ui s))) inv
  | AwaitStream, R_stream Resolved =>
      match inv_conversationId inv with
      | Some c =>
          let finalAiMessage :=
            {| msg_id := msg_id (inv_aiMessage inv);
               msg_role := msg_role (inv_aiMessage inv);
               msg_content := inv_fullResponse inv;
               msg_timestamp := msg_timestamp (inv_aiMessage inv) |} in
          (with_call s (Call_saveMessage c finalAiMessage),
           Some (at_pc inv AwaitSaveAssistant))
      | None => (finish s, None)
      end
  | AwaitStream, R_stream (Rejected _) =>
      (finally (with_call s
                  (Call_toastError (lit "Failed to generate response. Please try again."))),
       None)
  | AwaitSaveAssistant, R_saveMessage _ => (finish s, None)
  | _, _ => (s, Some inv)
  end.

(** The fragment callback passed to [generateStreamingResponse]. *)
Definition onChunk (s : session) (inv : invocation) (chunk : str)
    : session * invocation :=
  let fullResponse := inv_fullResponse inv ++ chunk in
  let responseId := msg_id (inv_aiMessage inv) in
  (with_ui s
     (setMessages
        (map (fun msg =>
                if msg_id msg =? responseId
                then {| msg_id := msg_id msg; msg_role := msg_role msg;
                        msg_content := fullResponse;
                        msg_timestamp := msg_timestamp msg |}
                else msg))
        (ui s)),
   {| inv_content := inv_content inv;
      inv_conversationId := inv_conversationId inv;
      inv_messages_length := inv_messages_length inv;
      inv_pc := inv_pc inv;
      inv_aiMessage := inv_aiMessage inv;
      inv_fullResponse := fullResponse |}).

(** [handleSubmit(content)] up to its first suspension. *)
Definition handleSubmit (s : session) (content : str) : session :=
  if isProcessing (ui s) then s
  else
    {| ui := ui s;
       inflight :=
         inflight s ++
         [{| inv_content := content;
             inv_conversationId := conversationId (ui s);
             inv_messages_length := length (messages (ui s));
             inv_pc := AwaitHasApiKey;
             inv_aiMessage := {| msg_id := 0; msg_role := assistant;
                                 msg_content := []; msg_timestamp := 0 |};
             inv_fullResponse := [] |}];
       calls := calls s ++ [Call_hasApiKey];
       next_uuid := next_uuid s;
       clock := clock s |}.

(** The form handler of [ChatInput]. *)
Definition ChatInput_handleSubmit (s : session) (input : str) : session :=
  if isEmpty (trim input) || isProcessing (ui s) then s
  else handleSubmit s (trim input).

(** What happens to the page: the form is submitted, a button calls
    [handleSubmit] directly, an awaited call of the [i]-th running
    [handleSubmit] settles, the stream of the [i]-th hands over a fragment,
    time passes. *)
Inductive input :=
| FormSubmit (text : str)
| Submit (content : str)
| Settle (i : nat) (r : result)
| Chunk (i : nat) (chunk : str)
| Tick.

Definition tick (s : session) : session :=
  {| ui := ui s; inflight := inflight s; calls := calls s;
     next_uuid := next_uuid s; clock := clock s + 1 |}.

Definition set_inflight (s : session) (l : list invocation) : session :=
  {| ui := ui s; inflight := l; calls := calls s;
     next_uuid := next_uuid s; clock := clock s |}.

Definition step (s : session) (e : input) : session :=
  match e with
  | FormSubmit text => ChatInput_handleSubmit s text
  | Submit content => handleSubmit s content
  | Settle i r =>
      match inflight s !! i with
      | Some inv =>
          match resume s inv r with
          | (s', Some inv') => set_inflight s' (<[i := inv']> (inflight s))
          | (s', None) => set_inflight s' (delete i (inflight s))
          end
      | None => s
      end
  | Chunk i chunk =>
      match inflight s !! i with
      | Some inv =>
          match inv_pc inv with
          | AwaitStream =>
              let '(s', inv') := onChunk s inv chunk in
              set_inflight s' (<[i := inv']> (inflight s))
          | _ => s
          end
      | None => s
      end
  | Tick => tick s
  end.

Definition run (s : session) (es : list input) : session := fold_left step es s.

(** The page as first rendered. *)
Definition initial_session : session :=
  {| ui := {| messages := []; isProcessing := false; isTyping := false;
              apiKeyModalOpen := false; currentResponseId := None;
              conversationId := None; refreshSidebarTrigger := 0 |};
     inflight := []; calls := []; next_uuid := 1; clock := 0 |}.

(** The phases of a turn as the design names them. *)
Inductive phase := AwaitingPersistUser | Streaming | AwaitingPersistAssistant.

Definition phase_of (p : pc) : phase :=
  match p with
  | AwaitStream => Streaming
  | AwaitSaveAssistant => AwaitingPersistAssistant
  | _ => AwaitingPersistUser
  end.

(** The controller is idle when no call of [handleSubmit] is running. *)
Definition Idle (s : session) : Prop := inflight s = [].

(** The flag of a turn that runs alone: set exactly from the start of the
    stream on. *)
Definition flag_of (p : pc) : bool :=
  match p with
  | AwaitStream | AwaitSaveAssistant => true
  | _ => false
  end.

(** The states the page can be in. *)
Definition can_occur (s : session) : Prop :=
  exists es, s = run initial_session es.

(** The states the page can be in when no two calls of [handleSubmit] ever
    ran at the same time. *)
Inductive solo : session -> Prop :=
| solo_initial : solo initial_session
| solo_step s e :
    solo s -> (length (inflight (step s e)) <= 1)%nat -> solo (step s e).

(** ** Sample streams *)

(** A stream record whose text payload is [text], on one line. *)
Definition record_line (text : str) : str :=
  lit "{`candidates`:[{`content`:{`parts`:[{`text`:`" ++ text ++ lit "`}]}}]}".

Definition Hi : str := lit "Hi".

(** Two equal records in the array framing of the endpoint, delivered in one
    read and in two. *)
Definition framed_one_read : list str :=
  [lit "[" ++ record_line Hi ++ LF ++ lit "," ++ LF ++ record_line Hi ++ LF
   ++ lit "]"].

Definition framed_two_reads : list str :=
  [lit "[" ++ record_line Hi ++ LF ++ lit "," ++ LF ++ record_line Hi ++ LF;
   lit "]"].

(** The same stream, its second line split between the first two reads. *)
Definition framed_split_record : list str :=
  [lit "[" ++ record_line Hi ++ LF ++ lit "," ++ LF
   ++ lit "{`candidates`:[{`content`:{`par";
   lit "ts`:[{`text`:`Hi`}]}}]}" ++ LF;
   lit "]"].

(** A stream of two well-formed records: the first has no [candidates] and
    quotes the second under another key.  Delivered in one read, and in two
    with the last line feed in a read of its own. *)
Definition quoting_record : str :=
  lit "{`previous`:" ++ record_line Hi ++ lit "}".

Definition quoted_one_read : list str :=
  [quoting_record ++ LF ++ record_line Hi ++ LF].

Definition quoted_two_reads : list str :=
  [quoting_record ++ LF ++ record_line Hi; LF].

(** The scenario of the design: one record split in the middle of a key. *)
Definition split_mid_key : list str :=
  [lit "{`candidates`:[{`content`:{`parts`:[{`te";
   lit "xt`:`Hello`}]}}]}" ++ LF].

(** A record that lacks its closing brace, then a complete record. *)
Definition unterminated : str :=
  lit "{`candidates`:[{`content`:{`parts`:[{`text`:`Lost`}]}}]".

Definition unterminated_then_record : str :=
  unterminated ++ LF ++ record_line Hi ++ LF.

(** A stream in which no line decodes but the text field is recognizable. *)
Definition undecodable_with_text : list str :=
  [lit "{ `candidates`: [ { `content`: { `parts`: [ { `te";
   lit "xt`: `Hello` } ] } }, { `text` :`again`"].

(** ** Sample sessions *)

(** A first turn in a fresh page, run to its end; then a second submission,
    for which the key check has passed and the user message is being
    saved. *)
Definition first_turn : list input :=
  [Submit (lit "first"); Settle 0 (R_hasApiKey true);
   Settle 0 (R_createConversation (Some 7)); Chunk 0 (lit "reply");
   Settle 0 (R_stream Resolved)].

Definition persisting_session : session :=
  run initial_session
    (first_turn ++ [Tick; Submit (lit "second"); Settle 0 (R_hasApiKey true)]).

(** A first turn in a fresh page, up to its stream. *)
Definition streaming_session : session :=
  step (step (step initial_session (Submit (lit "first")))
             (Settle 0 (R_hasApiKey true)))
       (Settle 0 (R_createConversation (Some 7))).

(** Messages of exactly 30 and of 31 code units. *)
Definition thirty_units : str := lit "exactly thirty code units long".

Definition thirty_one_units : str := lit "this one has thirty-one units..".

(** A call of [handleSubmit] for the first message of conversation 7, its
    user message being saved. *)
Definition first_message_saved : invocation :=
  {| inv_content := thirty_one_units;
     inv_conversationId := Some 7;
     inv_messages_length := 0;
     inv_pc := AwaitSaveUserMessage;
     inv_aiMessage := {| msg_id := 0; msg_role := assistant;
                         msg_content := []; msg_timestamp := 0 |};
     inv_fullResponse := [] |}.

(** A store with one conversation and two messages, one of them its own. *)
Definition sample_db : database :=
  {| conversations :=
       {[ 7 := {| title := lit "New Conversation"; user_id := 1;
                  created_at := 0; updated_at := 0 |} ]};
     messages_tbl :=
       [ {| conversation_id := 7; row_role := user;
            row_content := lit "first"; row_timestamp := 1 |};
         {| conversation_id := 8; row_role := user;
            row_content := lit "other"; row_timestamp := 2 |} ] |}.

(** A credential store whose key is cached, and one in which no key can be
    found. *)
Definition with_credential : credential_store :=
  {| GEMINI_API_KEY := lit "k3y"; default_api_key := None; stored_key := None |}.

Definition no_credential : credential_store :=
  {| GEMINI_API_KEY := []; default_api_key := None; stored_key := Some [] |}.

(** ** Auxiliary notions for the proofs *)

(** [emits st st' vs]: from [st] to [st'] the engine handed exactly [vs] to
    the callback, each of them truthy, and dropped a prefix of the buffer;
    with nothing handed over, nothing changed. *)
Definition emits (st st' : stream_state) (vs : list json) : Prop :=
  responseText st' = responseText st ++ vs
  /\ trace st' = trace st ++ map OnChunk vs
  /\ Forall (fun v => truthy (Val v) = true) vs
  /\ (vs = [] -> st' = st)
  /\ exists k, fullJsonStr st' = drop k (fullJsonStr st).

(** The fragment a candidate line yields, if it yields one: the line
    decodes, the guard finds a truthy text payload, and the runtime turns
    the payload into a string without a [TypeError] or a [RangeError]. *)
Definition payload_of (line : str) : option json :=
  if isEmpty (trim line) then None
  else
    match JSON_parse (trim line) with
    | None => None
    | Some jsonObject =>
        match text_guard jsonObject with
        | Normal (Val textChunk) =>
            if truthy (Val textChunk) && negb (toString_throws textChunk)
            then Some textChunk else None
        | _ => None
        end
    end.

(** A parser result that is not out of fuel and leaves less than [n] code
    units. *)
Definition fine {A} (r : presult A) (n : nat) : Prop :=
  r <> PFuel /\ forall v rest, r = POk v rest -> (length rest < n)%nat.

(** [is_text_match m body]: [m] is a match of the salvage pattern whose
    bracketed group is [body]. *)
Definition is_text_match (m body : str) : Prop :=
  exists w1 w2,
    m = text_key ++ w1 ++ 58 :: w2 ++ dquote :: body ++ [dquote]
    /\ Forall (fun c => isWhiteSpace c = true) w1
    /\ Forall (fun c => isWhiteSpace c = true) w2
    /\ body <> []
    /\ dquote ∉ body.

(** * Further code *)

(** ** [ApiKeyModal]: saving a key *)

Inductive notice :=
| NoticeError (msg : str)
| NoticeSuccess (msg : str).

(** What [handleSubmit] of the dialog leaves behind: the credential store,
    the notices shown, whether [onClose] was called. *)
Record key_dialog := {
  kd_store : credential_store;
  kd_notices : list notice;
  kd_closed : bool
}.

(** [handleSubmit] of the dialog on the text of its input.  [setApiKey]
    writes the module variable first and local storage second;
    [storage_ok] tells whether [localStorage.setItem] returns or throws. *)
Definition ApiKeyModal_handleSubmit (w : credential_store) (apiKey : str)
    (storage_ok : bool) : key_dialog :=
  if isEmpty (trim apiKey) then
    {| kd_store := w;
       kd_notices := [NoticeError (lit "Please enter a valid API key")];
       kd_closed := false |}
  else if storage_ok then
    {| kd_store := setApiKey w apiKey;
       kd_notices := [NoticeSuccess (lit "API key saved successfully")];
       kd_closed := true |}
  else
    {| kd_store := cache_key w apiKey;
       kd_notices := [NoticeError (lit "Failed to save API key")];
       kd_closed := false |}.

(** The credential store when the module is loaded anew: the module
    variable starts empty, what is outside stays. *)
Definition reload (w : credential_store) : credential_store :=
  {| GEMINI_API_KEY := [];
     default_api_key := default_api_key w;
     stored_key := stored_key w |}.

(** ** [saveMessage] and [getUserConversations] *)

(** [insert] into [messages]: the row carries the conversation, the role,
    the content and the timestamp of the message, not its [id]. *)
Definition insert_message (conversationId : N) (message : Message)
    (db : database) : database :=
  {| conversations := conversations db;
     messages_tbl :=
       messages_tbl db ++
       [{| conversation_id := conversationId;
           row_role := msg_role message;
           row_content := msg_content message;
           row_timestamp := msg_timestamp message |}] |}.

(** [update({ updated_at })] of one conversation. *)
Definition touch_conversation (conversationId : N) (now : N)
    (db : database) : database :=
  {| conversations :=
       alter (fun r => {| title := title r; user_id := user_id r;
                          created_at := created_at r; updated_at := now |})
             conversationId (conversations db);
     messages_tbl := messages_tbl db |}.

(** [saveMessage(conversationId, message)], called at instant [now]; [r1]
    is the store's reply to the insert, [r2] to the update of the
    conversation, whose outcome the function does not look at. *)
Definition saveMessage (db : database) (now : N) (r1 r2 : reply)
    (conversationId : N) (message : Message) : bool * database :=
  match r1 with
  | Fails => (false, db)
  | Succeeds =>
      let db1 := insert_message conversationId message db in
      (true,
       match r2 with
       | Succeeds => touch_conversation conversationId now db1
       | Fails => db1
       end)
  end.

(** The rows of [conversations] that belong to [uid], with their ids. *)
Definition owned_by (uid : N) (db : database) : list (N * conversation_row) :=
  filter (fun p => user_id p.2 = uid) (map_to_list (conversations db)).

(** [order("updated_at", { ascending: false })]: no row stands before one
    that was updated later.  Rows updated at the same instant may come in
    either order. *)
Definition newest_first (l : list (N * conversation_row)) : Prop :=
  StronglySorted (fun a b => updated_at b.2 <= updated_at a.2) l.

(** What [getUserConversations()] may return: nothing without a signed-in
    user or when the store reports an error, otherwise the rows of the
    user, newest first. *)
Definition getUserConversations_returns (auth : option N) (r : reply)
    (db : database) (l : list (N * conversation_row)) : Prop :=
  match auth, r with
  | Some uid, Succeeds => l ≡ₚ owned_by uid db /\ newest_first l
  | _, _ => l = []
  end.

(** A store with two conversations of one user. *)
Definition two_conversations : database :=
  {| conversations :=
       {[ 7 := {| title := lit "New Conversation"; user_id := 1;
                  created_at := 0; updated_at := 3 |};
          9 := {| title := lit "Later"; user_id := 1;
                  created_at := 4; updated_at := 6 |} ]};
     messages_tbl := [] |}.

(** Its list after conversation 7 was renamed at instant 10. *)
Definition listing_after_rename : list (N * conversation_row) :=
  [(7, {| title := lit "Renamed"; user_id := 1;
          created_at := 0; updated_at := 10 |});
   (9, {| title := lit "Later"; user_id := 1;
          created_at := 4; updated_at := 6 |})].

(** ** [ChatMessage]: the content as rendered *)

(** [content.replace(/\\n/g, '\n')]: from left to right, every reverse
    solidus followed by the letter n becomes a line feed. *)
Fixpoint unescape_newlines (s : str) : str :=
  match s with
  | [] => []
  | c :: t =>
      match t with
      | d :: t' =>
          if (c =? 92) && (d =? 110) then 10 :: unescape_newlines t'
          else c :: unescape_newlines t
      | [] => [c]
      end
  end.

Definition processedContent (content : str) : str :=
  trim (unescape_newlines content).

(** ** Notions for the further properties *)

(** The stream callback of a running [handleSubmit], called for each of
    [chunks] in turn. *)
Definition onChunks (s : session) (inv : invocation) (chunks : list str)
    : session * invocation :=
  fold_left (fun si chunk => onChunk si.1 si.2 chunk) chunks (s, inv).

(** A running [handleSubmit] resumed with one result after the other, until
    it ends or the results run out. *)
Fixpoint resume_with (s : session) (inv : invocation) (rs : list result)
    : session :=
  match rs with
  | [] => s
  | r :: rs' =>
      match resume s inv r with
      | (s', Some inv') => resume_with s' inv' rs'
      | (s', None) => s'
      end
  end.

(** The call of [handleSubmit] that a first submission on a fresh page
    starts. *)
Definition first_submission : invocation :=
  {| inv_content := lit "first";
     inv_conversationId := conversationId (ui initial_session);
     inv_messages_length := length (messages (ui initial_session));
     inv_pc := AwaitHasApiKey;
     inv_aiMessage := {| msg_id := 0; msg_role := assistant;
                         msg_content := []; msg_timestamp := 0 |};
     inv_fullResponse := [] |}.

(** A call of the page that writes to the remote store. *)
Definition is_write (c : call) : bool :=
  match c with
  | Call_saveMessage _ _ => true
  | Call_updateConversationTitle _ _ => true
  | _ => false
  end.

(** The requests a call sent to the generation endpoint, in order. *)
Definition fetches (tr : list event) : list (str * str) :=
  omap (fun e => match e with Fetch k p => Some (k, p) | _ => None end) tr.

(** [x] occurs in [s]. *)
Definition occurs_in (x s : str) : Prop := exists a b, s = a ++ x ++ b.

(** An input that does not come from a button calling [handleSubmit] with
    a text of its own: a form submission, or the progress of a running
    call. *)
Definition not_button (e : input) : bool :=
  match e with Submit _ => false | _ => true end.

(** A text with something in it and no white space around it. *)
Definition trimmed (s : str) : Prop := s <> [] /\ trim s = s.

(** A reverse solidus followed by the letter n. *)
Definition escaped_newline : str := [92; 110].

(** The message list after the stream callback ran with [fullResponse]:
    the argument of [prev.map] in the callback. *)
Definition with_reply (responseId : N) (fullResponse : str) (msg : Message)
    : Message :=
  if msg_id msg =? responseId
  then {| msg_id := msg_id msg; msg_role := msg_role msg;
          msg_content := fullResponse;
          msg_timestamp := msg_timestamp msg |}
  else msg.


(** ** Notions for the busy flag and the title *)

(** Two submissions before the key check of the first has answered; the
    first goes on to stream, the second ends because no conversation could
    be created for it. *)
Definition overlapping_session : session :=
  run initial_session
    [Submit (lit "first"); Submit (lit "second");
     Settle 0 (R_hasApiKey true); Settle 0 (R_createConversation (Some 7));
     Settle 1 (R_hasApiKey true); Settle 1 (R_createConversation None)].

(** A whole turn on a page that has no conversation yet. *)
Definition opening_turn (content reply : str) (id : N) : list input :=
  [Submit content; Settle 0 (R_hasApiKey true);
   Settle 0 (R_createConversation (Some id));
   Chunk 0 reply; Settle 0 (R_stream Resolved)].

(** A whole turn on a page that has a conversation. *)
Definition later_turn (content reply : str) (ok ok' : bool) : list input :=
  [Submit content; Settle 0 (R_hasApiKey true); Settle 0 (R_saveMessage ok);
   Chunk 0 reply; Settle 0 (R_stream Resolved); Settle 0 (R_saveMessage ok')].

(** A record whose text payload is an array in an array in an array. *)
Definition nested_record : str :=
  lit "{`candidates`:[{`content`:{`parts`:[{`text`:[[[`a`]]]}]}}]}" ++ LF.

End Runtime.

(** * Properties *)

Section Properties.

Context {rt : runtime}.

(** ** Prefixes *)

Lemma startsWith_drop needle : forall hay,
  startsWith needle hay = true -> hay = needle ++ drop (length needle) hay.
Proof.
  induction needle as [|a n IH]; intros [|b h] H; simpl in *; try done.
  apply andb_true_iff in H as [Hab Hn]. apply N.eqb_eq in Hab as ->.
  f_equal. by apply IH.
Qed.

Lemma startsWith_app needle rest : startsWith needle (needle ++ rest) = true.
Proof.
  induction needle as [|a n IH]; simpl; [done|].
  by rewrite N.eqb_refl, IH.
Qed.

(** ** [JSON_parse] never runs out of fuel *)

(** A result that is plainly an error: not out of fuel, nothing left to
    bound. *)
Local Ltac no_result := split; [done | intros; done].

Lemma pmap_ok {A B} (f : A -> B) (r : presult A) b rest :
  pmap f r = POk b rest -> exists a, r = POk a rest /\ b = f a.
Proof. destruct r; simpl; intros; simplify_eq; eauto. Qed.

Lemma pmap_fuel {A B} (f : A -> B) (r : presult A) :
  pmap f r = PFuel -> r = PFuel.
Proof. by destruct r. Qed.

Lemma skip_ws_length s : (length (skip_ws s) <= length s)%nat.
Proof.
  induction s as [|c t IH]; simpl; [lia|].
  destruct (isJsonWs c); simpl; lia.
Qed.

Lemma parse_chars_spec n : forall s, (length s <= n)%nat ->
  parse_chars s <> PFuel
  /\ forall v r, parse_chars s = POk v r -> (length r < length s)%nat.
Proof.
  induction n as [|n IH]; intros s Hn.
  - destruct s; simpl in *; [|lia]. no_result.
  - destruct s as [|c t]; simpl in *; [no_result|].
    assert (Ht : forall t', (length t' <= length t)%nat ->
              forall f : str -> str,
              pmap f (parse_chars t') <> PFuel
              /\ forall v r, pmap f (parse_chars t') = POk v r ->
                             (length r < S (length t))%nat).
    { intros t' Hle f. destruct (IH t' ltac:(lia)) as [Hf Hl]. split.
      - intros H%pmap_fuel. done.
      - intros v r (a & Ha & _)%pmap_ok. apply Hl in Ha. lia. }
    destruct (c =? 34); [split; [done | intros ? ? [= _ <-]; lia]|].
    destruct (c <? 32); [no_result|].
    destruct (c =? 92); [|apply Ht; lia].
    destruct t as [|e t1]; [no_result|].
    destruct (e =? 117).
    + destruct t1 as [|h1 [|h2 [|h3 [|h4 t2]]]];
        try (no_result).
      destruct (hexVal h1), (hexVal h2), (hexVal h3), (hexVal h4);
        try (no_result).
      destruct (Ht t2 ltac:(simpl; lia)
                  (cons (4096 * n0 + 256 * n1 + 16 * n2 + n3))) as [Hf Hl].
      split; [done|]. intros v r Hv. apply Hl in Hv. simpl in *. lia.
    + destruct (escapeChar e); [|no_result].
      destruct (Ht t1 ltac:(simpl; lia) (cons n0)) as [Hf Hl].
      split; [done|]. intros v r Hv. apply Hl in Hv. simpl in *. lia.
Qed.

Lemma digits_length s : forall acc len v k r,
  digits acc len s = (v, k, r) -> (length r <= length s)%nat.
Proof.
  induction s as [|c t IH]; intros acc len v k r; simpl.
  - intros [= _ _ <-]. done.
  - destruct (isDigit c).
    + intros H%IH. lia.
    + intros [= _ _ <-]. done.
Qed.

Lemma parse_exp_spec s :
  parse_exp s <> PFuel
  /\ forall e r, parse_exp s = POk e r -> (length r <= length s)%nat.
Proof.
  unfold parse_exp. destruct s as [|c t]; [split; [done | intros ? ? [= _ <-]; done]|].
  destruct ((c =? 101) || (c =? 69)); [|split; [done | intros ? ? [= _ <-]; done]].
  assert (Hd : forall t1, (length t1 <= length t)%nat -> forall sgn : Z,
            match digits 0 0 t1 with
            | (_, O, _) => PErr
            | (e, S _, rest) => POk (sgn * Z.of_N e)%Z rest
            end <> PFuel
            /\ forall e r,
                 match digits 0 0 t1 with
                 | (_, O, _) => PErr
                 | (e, S _, rest) => POk (sgn * Z.of_N e)%Z rest
                 end = POk e r -> (length r <= length (c :: t))%nat).
  { intros t1 Hle sgn. destruct (digits 0 0 t1) as [[v k] r] eqn:Hdig.
    apply digits_length in Hdig.
    destruct k; (split; [done|]); intros e r'; [done|].
    intros [= _ <-]. simpl. lia. }
  destruct t as [|p t']; [apply (Hd [] ltac:(done))|].
  destruct (p =? 43); [apply Hd; simpl; lia|].
  destruct (p =? 45); apply Hd; simpl; lia.
Qed.

Lemma parse_frac_spec int s :
  parse_frac int s <> PFuel
  /\ forall m r, parse_frac int s = POk m r -> (length r <= length s)%nat.
Proof.
  unfold parse_frac. destruct s as [|c t]; [split; [done | intros ? ? [= _ <-]; done]|].
  destruct (c =? 46); [|split; [done | intros ? ? [= _ <-]; done]].
  destruct (digits int 0 t) as [[v k] r] eqn:Hdig. apply digits_length in Hdig.
  destruct k; (split; [done|]); intros m r'; [done|].
  intros [= _ <-]. simpl. lia.
Qed.

Lemma parse_unsigned_spec sign s :
  parse_unsigned sign s <> PFuel
  /\ forall d r, parse_unsigned sign s = POk d r -> (length r < length s)%nat.
Proof.
  unfold parse_unsigned. destruct s as [|c t]; [no_result|].
  destruct (isDigit c) eqn:Hc; simpl negb; cbv iota;
    [|no_result].
  assert (Hs2 : exists int s2,
            (if c =? 48 then (0, t)
             else let '(v, _, r) := digits 0 0 (c :: t) in (v, r)) = (int, s2)
            /\ (length s2 < length (c :: t))%nat).
  { destruct (c =? 48); [exists 0, t; split; [done | simpl; lia]|].
    simpl digits. rewrite Hc.
    destruct (digits (10 * 0 + (c - 48)) 1 t) as [[v k] r] eqn:Hdig.
    apply digits_length in Hdig. exists v, r. split; [done | simpl; lia]. }
  destruct Hs2 as (int & s2 & -> & Hlen2).
  destruct (parse_frac_spec int s2) as [Hff Hfl].
  destruct (parse_frac int s2) as [[m k] s3| |]; [|no_result|done].
  specialize (Hfl _ _ eq_refl).
  destruct (parse_exp_spec s3) as [Hef Hel].
  destruct (parse_exp s3) as [e rest| |]; [|no_result|done].
  specialize (Hel _ _ eq_refl).
  split; [done|]. intros d r [= _ <-]. simpl in *. lia.
Qed.

Lemma parse_number_spec s :
  parse_number s <> PFuel
  /\ forall d r, parse_number s = POk d r -> (length r < length s)%nat.
Proof.
  unfold parse_number. destruct s as [|c t]; [no_result|].
  destruct (c =? 45); [|apply parse_unsigned_spec].
  destruct (parse_unsigned_spec true t) as [Hf Hl]. split; [done|].
  intros d r H%Hl. simpl. lia.
Qed.

Lemma expect_spec word v s :
  word <> [] ->
  expect word v s <> PFuel
  /\ forall w r, expect word v s = POk w r -> (length r < length s)%nat.
Proof.
  intros Hw. unfold expect. destruct (startsWith word s) eqn:Hsw.
  - split; [done|]. intros w r [= _ <-]. apply startsWith_drop in Hsw.
    rewrite length_drop. destruct word; [done|].
    apply (f_equal length) in Hsw. rewrite length_app in Hsw. simpl in *. lia.
  - no_result.
Qed.

Lemma fine_weaken {A} (r : presult A) (n m : nat) :
  (n <= m)%nat -> fine r n -> fine r m.
Proof.
  intros Hnm [Hf Hl]. split; [done|]. intros v rest H%Hl. lia.
Qed.

Lemma fine_pmap {A B} (f : A -> B) (r : presult A) (n : nat) :
  fine r n -> fine (pmap f r) n.
Proof.
  intros [Hf Hl]. split.
  - intros H%pmap_fuel. done.
  - intros v rest (a & Ha & _)%pmap_ok. by eapply Hl.
Qed.

Lemma fine_err {A} (n : nat) : fine (@PErr A) n.
Proof. no_result. Qed.

Lemma parse_fuel_spec (fuel : nat) :
  (forall s, (2 * length s < fuel)%nat ->
     fine (parse_value fuel s) (length s))
  /\ (forall s, (2 * length s + 1 < fuel)%nat ->
       fine (parse_elements fuel s) (length s))
  /\ (forall s, (2 * length s + 1 < fuel)%nat ->
       fine (parse_members fuel s) (length s)).
Proof.
  induction fuel as [|fuel (IHv & IHe & IHm)].
  { repeat split; intros; lia. }
  split; [|split]; intros s Hfuel.
  - (* values *)
    cbn [parse_value]. pose proof (skip_ws_length s) as Hsk.
    destruct (skip_ws s) as [|c t]; [apply fine_err|]. simpl in Hsk.
    destruct (c =? 34).
    { apply fine_pmap. eapply fine_weaken; [|apply (parse_chars_spec (length t)); lia]. lia. }
    destruct (c =? 91).
    { pose proof (skip_ws_length t) as Hsk'.
      destruct (skip_ws t) as [|c' t']; [apply fine_err|]. simpl in Hsk'.
      destruct (c' =? 93).
      - split; [done|]. intros v rest [= _ <-]. lia.
      - apply fine_pmap. eapply fine_weaken; [|apply IHe; lia]. lia. }
    destruct (c =? 123).
    { pose proof (skip_ws_length t) as Hsk'.
      destruct (skip_ws t) as [|c' t']; [apply fine_err|]. simpl in Hsk'.
      destruct (c' =? 125).
      - split; [done|]. intros v rest [= _ <-]. lia.
      - apply fine_pmap. eapply fine_weaken; [|apply IHm; lia]. lia. }
    destruct (c =? 116).
    { eapply fine_weaken; [|apply expect_spec; done]. simpl; lia. }
    destruct (c =? 102).
    { eapply fine_weaken; [|apply expect_spec; done]. simpl; lia. }
    destruct (c =? 110).
    { eapply fine_weaken; [|apply expect_spec; done]. simpl; lia. }
    apply fine_pmap. eapply fine_weaken; [|apply parse_number_spec]. simpl; lia.
  - (* elements *)
    cbn [parse_elements].
    destruct (IHv s ltac:(lia)) as [Hf Hl].
    destruct (parse_value fuel s) as [v rest| |]; [|apply fine_err|done].
    specialize (Hl _ _ eq_refl). pose proof (skip_ws_length rest) as Hsk.
    destruct (skip_ws rest) as [|c t]; [apply fine_err|]. simpl in Hsk.
    destruct (c =? 44).
    { apply fine_pmap. eapply fine_weaken; [|apply IHe; lia]. lia. }
    destruct (c =? 93); [|apply fine_err].
    split; [done|]. intros w r [= _ <-]. lia.
  - (* members *)
    cbn [parse_members]. pose proof (skip_ws_length s) as Hsk.
    destruct (skip_ws s) as [|q t]; [apply fine_err|]. simpl in Hsk.
    destruct (q =? 34); [|apply fine_err].
    destruct (parse_chars_spec (length t) t ltac:(lia)) as [Hcf Hcl].
    destruct (parse_chars t) as [k rest| |]; [|apply fine_err|done].
    specialize (Hcl _ _ eq_refl). pose proof (skip_ws_length rest) as Hsk1.
    destruct (skip_ws rest) as [|colon t1]; [apply fine_err|]. simpl in Hsk1.
    destruct (colon =? 58); [|apply fine_err].
    destruct (IHv t1 ltac:(lia)) as [Hf Hl].
    destruct (parse_value fuel t1) as [v rest'| |]; [|apply fine_err|done].
    specialize (Hl _ _ eq_refl). pose proof (skip_ws_length rest') as Hsk2.
    destruct (skip_ws rest') as [|c t2]; [apply fine_err|]. simpl in Hsk2.
    destruct (c =? 44).
    { apply fine_pmap. eapply fine_weaken; [|apply IHm; lia]. lia. }
    destruct (c =? 125); [|apply fine_err].
    split; [done|]. intros w r [= _ <-]. lia.
Qed.

(** The fuel [JSON_parse] supplies is never used up: a [None] is a syntax
    error. *)
Lemma JSON_parse_fuel (s : str) : parse_value (2 * length s + 1) s <> PFuel.
Proof. apply parse_fuel_spec. lia. Qed.

(** ** The parse loop only appends to its output and cuts the buffer from
       the left *)

Lemma fragments_app tr1 tr2 :
  fragments (tr1 ++ tr2) = fragments tr1 ++ fragments tr2.
Proof. unfold fragments. apply omap_app. Qed.

Lemma fragments_OnChunk vs : fragments (map OnChunk vs) = vs.
Proof. induction vs as [|v vs IH]; simpl; [done | by rewrite IH]. Qed.

Lemma emits_refl st : emits st st [].
Proof.
  unfold emits. rewrite !app_nil_r. repeat split; auto.
  exists 0%nat. done.
Qed.

Lemma emits_trans st1 st2 st3 vs ws :
  emits st1 st2 vs -> emits st2 st3 ws -> emits st1 st3 (vs ++ ws).
Proof.
  intros (Hr1 & Ht1 & Hf1 & He1 & k1 & Hb1) (Hr2 & Ht2 & Hf2 & He2 & k2 & Hb2).
  unfold emits. repeat split.
  - by rewrite Hr2, Hr1, app_assoc.
  - by rewrite Ht2, Ht1, map_app, app_assoc.
  - by apply Forall_app.
  - intros Hnil. apply app_eq_nil in Hnil as [-> ->].
    rewrite (He2 eq_refl). by apply He1.
  - exists (k1 + k2)%nat. by rewrite Hb2, Hb1, drop_drop.
Qed.

Lemma for_body_emits n st i line :
  exists vs, emits st (for_body n st i line) vs.
Proof.
  unfold for_body.
  destruct (isEmpty (trim line)); [exists []; apply emits_refl|].
  destruct (JSON_parse (trim line)) as [o|]; [|exists []; apply emits_refl].
  destruct (text_guard o) as [[|v]|]; try (exists []; apply emits_refl).
  destruct (truthy (Val v)) eqn:Ht; [|exists []; apply emits_refl].
  destruct (toString_throws v); [exists []; apply emits_refl|].
  exists [v]. unfold emits; simpl. repeat split; auto.
  - intros Hnil. discriminate.
  - unfold substring. eauto.
Qed.

Lemma for_loop_emits n lines : forall st i,
  exists vs, emits st (for_loop n st i lines) vs.
Proof.
  induction lines as [|line rest IH]; intros st i; simpl.
  - exists []. apply emits_refl.
  - destruct (for_body_emits n st i line) as [vs Hvs].
    destruct (IH (for_body n st i line) (S i)) as [ws Hws].
    exists (vs ++ ws). eapply emits_trans; eauto.
Qed.

Lemma process_chunk_emits st chunk :
  exists vs, emits (received st chunk) (process_chunk st chunk) vs.
Proof. unfold process_chunk. apply for_loop_emits. Qed.

(** What a pass hands over is decided by the lines of the buffer alone:
    the payload of every candidate line that has one, in the order of the
    lines, whatever the cuts made on the way. *)
Lemma for_loop_payloads n lines : forall st i,
  fragments (trace (for_loop n st i lines))
  = fragments (trace st) ++ omap payload_of lines.
Proof.
  induction lines as [|line rest IH]; intros st i; simpl.
  - by rewrite app_nil_r.
  - rewrite IH. unfold for_body, payload_of.
    destruct (isEmpty (trim line)); [done|].
    destruct (JSON_parse (trim line)) as [o|]; [|done].
    destruct (text_guard o) as [[|v]|]; try done.
    destruct (truthy (Val v) && negb (toString_throws v)); [|done].
    simpl. by rewrite fragments_app, <- app_assoc.
Qed.

Lemma process_chunk_payloads st chunk :
  fragments (trace (process_chunk st chunk))
  = fragments (trace st) ++ omap payload_of (jsonObjects_of (fullJsonStr st ++ chunk)).
Proof. unfold process_chunk. by rewrite for_loop_payloads. Qed.

(** What a run of passes has handed over, and that a silent run keeps the
    whole input in the buffer. *)
Lemma passes_emit chunks : forall st,
  exists vs,
    responseText (fold_left process_chunk chunks st) = responseText st ++ vs
    /\ trace (fold_left process_chunk chunks st) = trace st ++ map OnChunk vs
    /\ Forall (fun v => truthy (Val v) = true) vs
    /\ (vs = [] ->
        fullJsonStr (fold_left process_chunk chunks st)
        = fullJsonStr st ++ concat chunks).
Proof.
  induction chunks as [|chunk rest IH]; intros st; simpl.
  - exists []. rewrite !app_nil_r. repeat split; auto.
  - destruct (process_chunk_emits st chunk) as (vs & Hr & Ht & Hf & He & _).
    destruct (IH (process_chunk st chunk)) as (ws & Hr' & Ht' & Hf' & Hb').
    exists (vs ++ ws). repeat split.
    + by rewrite Hr', Hr, app_assoc.
    + by rewrite Ht', Ht, map_app, app_assoc.
    + by apply Forall_app.
    + intros Hnil. apply app_eq_nil in Hnil as [-> ->].
      rewrite (Hb' eq_refl), (He eq_refl). simpl. by rewrite app_assoc.
Qed.

Lemma parse_loop_emits chunks :
  exists vs,
    responseText (parse_loop chunks) = vs
    /\ trace (parse_loop chunks) = map OnChunk vs
    /\ Forall (fun v => truthy (Val v) = true) vs
    /\ (vs = [] -> fullJsonStr (parse_loop chunks) = concat chunks).
Proof.
  destruct (passes_emit chunks initial_stream) as (vs & Hr & Ht & Hf & Hb).
  exists vs. repeat split; auto.
Qed.

(** A value that is truthy and a string is a non-empty string, and its
    [ToString] is not empty. *)
Lemma truthy_string_nonempty s :
  truthy (Val (JStr s)) = true -> toString_isEmpty (JStr s) = false.
Proof. simpl. by destruct s. Qed.

(** ** The salvage pattern *)

Lemma trimStart_split s :
  exists w, s = w ++ trimStart s /\ Forall (fun c => isWhiteSpace c = true) w.
Proof.
  induction s as [|c t (w & Hw & Hf)]; simpl.
  - by exists [].
  - destruct (isWhiteSpace c) eqn:Hc.
    + exists (c :: w). split; [by rewrite Hw at 1 | by constructor].
    + by exists [].
Qed.

Lemma trimStart_ws w c r :
  Forall (fun c => isWhiteSpace c = true) w -> isWhiteSpace c = false ->
  trimStart (w ++ c :: r) = c :: r.
Proof.
  induction 1 as [|a w Ha _ IH]; intros Hc; simpl.
  - by rewrite Hc.
  - rewrite Ha. by apply IH.
Qed.

Lemma match_prefix_inv s p :
  match_prefix s = Some p ->
  exists w1 w2 r,
    s = text_key ++ w1 ++ 58 :: w2 ++ dquote :: r
    /\ Forall (fun c => isWhiteSpace c = true) w1
    /\ Forall (fun c => isWhiteSpace c = true) w2
    /\ p = length (text_key ++ w1 ++ 58 :: w2 ++ [dquote]).
Proof.
  unfold match_prefix. destruct (startsWith text_key s) eqn:Hk; [|done].
  apply startsWith_drop in Hk. set (s1 := drop (length text_key) s) in *.
  destruct (trimStart_split s1) as (w1 & Hs1 & Hw1).
  destruct (trimStart s1) as [|c s3]; [done|].
  destruct (c =? 58) eqn:Hc; [|done]. apply N.eqb_eq in Hc as ->.
  destruct (trimStart_split s3) as (w2 & Hs3 & Hw2).
  destruct (trimStart s3) as [|q s5]; [done|].
  destruct (q =? dquote) eqn:Hq; [|done]. apply N.eqb_eq in Hq as ->.
  intros [= <-]. exists w1, w2, s5.
  assert (Hs : s = text_key ++ w1 ++ 58 :: w2 ++ dquote :: s5).
  { rewrite Hk. f_equal. rewrite Hs1. f_equal. f_equal. done. }
  repeat split; auto.
  rewrite Hs at 1. rewrite !length_app; simpl. rewrite !length_app; simpl. lia.
Qed.

Lemma match_prefix_intro w1 w2 r :
  Forall (fun c => isWhiteSpace c = true) w1 ->
  Forall (fun c => isWhiteSpace c = true) w2 ->
  match_prefix (text_key ++ w1 ++ 58 :: w2 ++ dquote :: r)
  = Some (length (text_key ++ w1 ++ 58 :: w2 ++ [dquote])).
Proof.
  intros Hw1 Hw2. unfold match_prefix.
  rewrite startsWith_app, drop_app_length.
  rewrite (trimStart_ws w1 58 _ Hw1 eq_refl), N.eqb_refl.
  rewrite (trimStart_ws w2 dquote _ Hw2 eq_refl), N.eqb_refl.
  f_equal. rewrite !length_app; simpl. rewrite !length_app; simpl. lia.
Qed.

Lemma notQuote_run_split s :
  (dquote ∉ take (notQuote_run s) s)
  /\ (match drop (notQuote_run s) s with
      | [] => True
      | q :: _ => q = dquote
      end).
Proof.
  induction s as [|c t [IH1 IH2]]; simpl.
  - split; [apply not_elem_of_nil | done].
  - destruct (c =? dquote) eqn:Hc; simpl.
    + split; [apply not_elem_of_nil | by apply N.eqb_eq].
    + split; [|done]. apply not_elem_of_cons. split; [|done].
      intros Heq. rewrite <- Heq in Hc. by rewrite N.eqb_refl in Hc.
Qed.

(** A match of the whole pattern at the start of [s] is a text match. *)
Lemma match_text_inv s len :
  match_text s = Some len ->
  exists body, is_text_match (take len s) body.
Proof.
  unfold match_text. destruct (match_prefix s) as [p|] eqn:Hp; [|done].
  destruct (match_prefix_inv _ _ Hp) as (w1 & w2 & r & Hs & Hw1 & Hw2 & Hlen).
  assert (Hd : drop p s = r).
  { rewrite Hs, Hlen.
    replace (text_key ++ w1 ++ 58 :: w2 ++ dquote :: r)
      with ((text_key ++ w1 ++ 58 :: w2 ++ [dquote]) ++ r).
    - apply drop_app_length.
    - rewrite <- !app_assoc. simpl. rewrite <- !app_assoc. done. }
  rewrite Hd. destruct (notQuote_run_split r) as [Hnq Hq].
  destruct (notQuote_run r) as [|k] eqn:Hk; [done|].
  destruct (drop (S k) r) as [|q r'] eqn:Hr; [done|]. subst q.
  intros [= <-]. exists (take (S k) r).
  exists w1, w2. repeat split; auto.
  - rewrite Hs at 1.
    assert (Hr2 : r = take (S k) r ++ dquote :: r').
    { rewrite <- Hr. symmetry. apply take_drop. }
    assert (Hlk : length (take (S k) r) = S k).
    { apply length_take_le. apply (f_equal length) in Hr.
      rewrite length_drop in Hr. simpl in Hr. lia. }
    rewrite Hr2 at 1.
    replace (text_key ++ w1 ++ 58 :: w2 ++ dquote :: take (S k) r ++ dquote :: r')
      with ((text_key ++ w1 ++ 58 :: w2 ++ dquote :: take (S k) r ++ [dquote]) ++ r').
    + rewrite take_app_length'; [done|].
      rewrite Hlen. rewrite !length_app; simpl. rewrite !length_app; simpl.
      rewrite !length_app; simpl. rewrite Hlk. lia.
    + rewrite <- !app_assoc. simpl. rewrite <- !app_assoc. simpl.
      rewrite <- !app_assoc. done.
  - destruct r; [by rewrite drop_nil in Hr | done].
Qed.

Lemma matches_from_text_match s : forall skip,
  Forall (fun m => exists body, is_text_match m body) (matches_from skip s).
Proof.
  induction s as [|c t IH]; intros skip; simpl; [constructor|].
  destruct skip as [|k]; [|apply IH].
  destruct (match_text (c :: t)) as [len|] eqn:Hm; [|apply IH].
  constructor; [|apply IH]. by apply match_text_inv.
Qed.

Lemma remove_final_quote_body body :
  dquote ∉ body -> remove_final_quote (body ++ [dquote]) = body.
Proof.
  induction body as [|c t IH]; intros Hnq; simpl; [done|].
  apply not_elem_of_cons in Hnq as [Hc Ht].
  replace (c =? dquote) with false; simpl.
  - f_equal. by apply IH.
  - symmetry. apply N.eqb_neq. congruence.
Qed.

(** The two replacements recover the bracketed group of a match. *)
Lemma salvage_text_body m body :
  is_text_match m body -> salvage_text m = body.
Proof.
  intros (w1 & w2 & -> & Hw1 & Hw2 & Hne & Hnq). unfold salvage_text.
  assert (Hrm : remove_prefix_match
                  (text_key ++ w1 ++ 58 :: w2 ++ dquote :: body ++ [dquote])
                = body ++ [dquote]).
  { set (m := text_key ++ _). destruct m as [|c t] eqn:Hm; [done|].
    unfold remove_prefix_match; fold remove_prefix_match. rewrite <- Hm. unfold m.
    rewrite (match_prefix_intro w1 w2 _ Hw1 Hw2).
    replace (text_key ++ w1 ++ 58 :: w2 ++ dquote :: body ++ [dquote])
      with ((text_key ++ w1 ++ 58 :: w2 ++ [dquote]) ++ body ++ [dquote]).
    - apply drop_app_length.
    - rewrite <- !app_assoc. simpl. rewrite <- !app_assoc. done. }
  rewrite Hrm. by apply remove_final_quote_body.
Qed.

Lemma textMatches_salvage buf :
  Forall (fun m => exists body, is_text_match m body /\ salvage_text m = body)
         (textMatches buf).
Proof.
  eapply Forall_impl; [apply matches_from_text_match|].
  intros m [body Hm]. exists body. split; [done | by apply salvage_text_body].
Qed.

Lemma salvage_text_nonempty buf m :
  m ∈ textMatches buf -> salvage_text m <> [].
Proof.
  intros Hin. pose proof (textMatches_salvage buf) as Hall.
  rewrite Forall_forall in Hall. destruct (Hall m Hin) as (body & Hm & ->).
  by destruct Hm as (_ & _ & _ & _ & _ & Hne & _).
Qed.

(** ** After the loop: salvage and fallback *)

Lemma salvage_emit_fold ms : forall st,
  fullJsonStr (fold_left salvage_emit ms st) = fullJsonStr st
  /\ responseText (fold_left salvage_emit ms st)
     = responseText st ++ map (fun m => JStr (salvage_text m)) ms
  /\ trace (fold_left salvage_emit ms st)
     = trace st ++ map OnChunk (map (fun m => JStr (salvage_text m)) ms).
Proof.
  induction ms as [|m ms IH]; intros st; simpl.
  - by rewrite !app_nil_r.
  - destruct (IH (salvage_emit st m)) as (Hb & Hr & Ht).
    rewrite Hb, Hr, Ht. simpl. by rewrite <- !app_assoc.
Qed.

Lemma forallb_toString_nonempty (vs : list json) v :
  v ∈ vs -> toString_isEmpty v = false -> forallb toString_isEmpty vs = false.
Proof.
  induction 1 as [v vs | v w vs _ IH]; intros Hv; simpl.
  - by rewrite Hv.
  - rewrite (IH Hv). apply andb_false_r.
Qed.

(** Whatever the engine has handed over before the fallback: it is what
    [responseText] was built from, and no string among it is empty. *)
Lemma before_fallback chunks :
  exists vs,
    responseText (salvage (parse_loop chunks)) = vs
    /\ trace (salvage (parse_loop chunks)) = map OnChunk vs
    /\ Forall (fun v => forall s, v = JStr s -> s <> []) vs.
Proof.
  destruct (parse_loop_emits chunks) as (vs & Hr & Ht & Hf & _).
  unfold salvage.
  destruct (responseText_isEmpty (parse_loop chunks)) eqn:He.
  - destruct (salvage_emit_fold (textMatches (fullJsonStr (parse_loop chunks)))
                (parse_loop chunks)) as (_ & Hr' & Ht').
    exists (vs ++ map (fun m => JStr (salvage_text m))
                    (textMatches (fullJsonStr (parse_loop chunks)))).
    rewrite Hr', Ht', Hr, Ht, map_app. repeat split.
    apply Forall_app. split.
    + eapply Forall_impl; [exact Hf|]. intros v Hv s ->. by destruct s.
    + apply Forall_forall. intros v Hin s ->.
      apply list_elem_of_fmap in Hin as (m & [= ->] & Hm).
      by eapply salvage_text_nonempty.
  - exists vs. repeat split; auto.
    eapply Forall_impl; [exact Hf|]. intros v Hv s ->. by destruct s.
Qed.

(** With a credential and a body read to its end, the call hands over what
    the stream processing hands over. *)
Lemma emitted_by_body (w : credential_store) (prompt : str) (chunks : list str) :
  fst (getApiKey w) <> [] ->
  emitted_by w prompt (Body chunks) = fragments (trace (process_stream chunks)).
Proof.
  intros Hkey. unfold emitted_by, generateStreamingResponse.
  destruct (getApiKey w) as [apiKey w']. simpl in Hkey.
  destruct apiKey; [done|]. reflexivity.
Qed.



(** ** The loop on the sample streams *)

(** The scenario of the design: a record split in the middle of a key gives
    nothing after the first read and its text, once, after the second. *)
Example split_mid_key_scenario :
  fragments (trace (parse_loop (take 1 split_mid_key))) = []
  /\ emitted_by with_credential (lit "hello") (Body split_mid_key)
     = [JStr (lit "Hello")].
Proof. split; vm_compute; reflexivity. Qed.

(** C1.  Chunking-invariance does not hold of the loop: the same stream,
    two equal records in the array framing, gives the text once when it
    arrives in one read and twice when the closing bracket arrives in a read
    of its own.  The second record is searched with [indexOf], found inside
    the undecodable first line (at index 1), and so stays in the buffer for
    the next pass. *)
Theorem chunking_changes_output :
  concat framed_one_read = concat framed_two_reads
  /\ emitted_by with_credential (lit "hello") (Body framed_one_read)
     = [JStr Hi]
  /\ emitted_by with_credential (lit "hello") (Body framed_two_reads)
     = [JStr Hi; JStr Hi]
  /\ indexOf (concat (take 1 framed_two_reads)) (record_line Hi) = 1%Z
  /\ fullJsonStr (parse_loop (take 1 framed_two_reads))
     = LF ++ lit "," ++ LF ++ record_line Hi ++ LF.
Proof. repeat split; vm_compute; reflexivity. Qed.

(** The same happens in a stream all of whose lines are well-formed
    records. *)
Example chunking_changes_output_of_records :
  concat quoted_one_read = concat quoted_two_reads
  /\ is_Some (JSON_parse quoting_record)
  /\ payload_of quoting_record = None
  /\ emitted_by with_credential (lit "hello") (Body quoted_one_read)
     = [JStr Hi]
  /\ emitted_by with_credential (lit "hello") (Body quoted_two_reads)
     = [JStr Hi; JStr Hi].
Proof. repeat split; try (vm_compute; reflexivity). vm_compute. eauto. Qed.

(** C2.  Exactly-once does not hold of the loop: in this stream one line
    decodes, the record split between the first two reads.  Nothing is
    handed over after the first read, its text after the second, and the
    same text again after the third. *)
Theorem split_record_emitted_twice :
  List.filter (fun line => bool_decide (is_Some (JSON_parse (trim line))))
              (jsonObjects_of (concat framed_split_record))
  = [record_line Hi]
  /\ fragments (trace (parse_loop (take 1 framed_split_record))) = []
  /\ fragments (trace (parse_loop (take 2 framed_split_record))) = [JStr Hi]
  /\ emitted_by with_credential (lit "hello") (Body framed_split_record)
     = [JStr Hi; JStr Hi].
Proof. repeat split; vm_compute; reflexivity. Qed.

(** C3.  The buffer-advancement invariant does not hold of the loop: a line
    that never decoded is cut from the buffer together with the record that
    follows it; and where the text of a decoded record also occurs earlier
    in the buffer, the cut falls there: the decoded record stays and a part
    of another line goes. *)
Theorem undecoded_line_discarded :
  JSON_parse unterminated = None
  /\ fullJsonStr (received initial_stream unterminated_then_record)
     = unterminated ++ LF ++ record_line Hi ++ LF
  /\ fullJsonStr (process_chunk initial_stream unterminated_then_record) = LF
  /\ fragments (trace (process_chunk initial_stream unterminated_then_record))
     = [JStr Hi]
  /\ fullJsonStr (process_chunk initial_stream (concat quoted_one_read))
     = lit "}" ++ LF ++ record_line Hi ++ LF
  /\ fragments (trace (process_chunk initial_stream (concat quoted_one_read)))
     = [JStr Hi].
Proof. repeat split; vm_compute; reflexivity. Qed.

Example salvage_pass_sample :
  emitted_by with_credential (lit "hello") (Body undecodable_with_text)
  = [JStr (lit "Hello"); JStr (lit "again")].
Proof. vm_compute; reflexivity. Qed.

(** ** The credential check *)

Lemma delete_last {A} (l : list A) (x : A) : delete (length l) (l ++ [x]) = l.
Proof. induction l as [|a l IH]; simpl; [done | by rewrite IH]. Qed.

Lemma lookup_last {A} (l : list A) (x : A) : (l ++ [x]) !! length l = Some x.
Proof. induction l as [|a l IH]; simpl; done. Qed.

(** No key resolves exactly when none is cached, the store of default keys
    gives none and local storage holds none. *)
Lemma nothing_resolves (w : credential_store) :
  fst (getApiKey w) = [] <->
  GEMINI_API_KEY w = []
  /\ nonEmptyKey (default_api_key w) = None
  /\ nonEmptyKey (stored_key w) = None.
Proof.
  assert (Hne : forall o k, nonEmptyKey o = Some k -> k <> []).
  { intros [k'|] k; simpl; [|done]. destruct k'; simpl; [done|].
    by intros [= <-]. }
  unfold getApiKey. destruct (GEMINI_API_KEY w) as [|c k] eqn:Hk; simpl.
  - destruct (nonEmptyKey (default_api_key w)) as [dbKey|] eqn:Hdb; simpl.
    + split; [intros ->; by apply Hne in Hdb | by intros (_ & ? & _)].
    + destruct (nonEmptyKey (stored_key w)) as [storedKey|] eqn:Hst; simpl.
      * split; [intros ->; by apply Hne in Hst | by intros (_ & _ & ?)].
      * done.
  - split; [done | by intros (? & _)].
Qed.

(** C6.  Missing credential: when no key resolves, [generateStreamingResponse]
    rejects with the missing-key error having done nothing but show the
    notice (no request to the endpoint, no fragment handed over);
    [hasApiKey] answers false; and a submission that passes the busy guard
    ends, once the key check has answered, with the credential dialog open
    ([apiKeyModalOpen] is true), the message list and the rest of the state
    as they were, no call of [handleSubmit] left running, and no call made
    but the key check (nothing saved, nothing sent). *)
Theorem missing_credential (w : credential_store) (prompt : str)
    (answer : response) (s : session) (content : str) :
  fst (getApiKey w) = [] ->
  generateStreamingResponse w prompt answer
  = (Rejected (lit "API key not set"),
     [Toast (lit "Please set your Gemini API key first")],
     snd (getApiKey w))
  /\ hasApiKey w = false
  /\ (isProcessing (ui s) = false ->
      let s' := run s [Submit content;
                       Settle (length (inflight s)) (R_hasApiKey (hasApiKey w))] in
      apiKeyModalOpen (ui s') = true
      /\ messages (ui s') = messages (ui s)
      /\ ui s' = setApiKeyModalOpen true (ui s)
      /\ inflight s' = inflight s
      /\ calls s' = calls s ++ [Call_hasApiKey]).
Proof.
  intros Hkey. split; [|split].
  - unfold generateStreamingResponse.
    destruct (getApiKey w) as [apiKey w'] eqn:Hg. simpl in Hkey. by subst apiKey.
  - unfold hasApiKey. by rewrite Hkey.
  - intros Hidle. unfold hasApiKey. rewrite Hkey. simpl.
    unfold handleSubmit. rewrite Hidle. simpl.
    rewrite lookup_last. simpl. by rewrite delete_last.
Qed.

(** ** The conversation store *)

Lemma filter_not_elem (c : N) (l : list message_row) (m : message_row) :
  m ∈ List.filter (fun m => negb (conversation_id m =? c)) l ->
  conversation_id m <> c.
Proof.
  rewrite list_elem_of_In, filter_In. intros [_ H] Heq.
  apply negb_true_iff, N.eqb_neq in H. done.
Qed.

Section DeleteConversation.

Variables (db : database) (r1 r2 : reply) (id : N).

(** C8.  Deletion ordering: whatever the store replies, the tables after
    [deleteConversation] are those its requests produce in order, and at any
    point of its log where the request to delete the conversation row
    stands, what precedes it is the successful request to delete the
    messages of the conversation: on the tables the row is deleted from, no
    message of the conversation is left. *)
Theorem delete_messages_first :
  (deleteConversation db r1 r2 id).1.2 = replay (deleteConversation db r1 r2 id).2 db
  /\ forall pre post r,
       (deleteConversation db r1 r2 id).2
       = pre ++ Sent (DeleteConversation id) r :: post ->
       pre = [Sent (DeleteMessages id) Succeeds]
       /\ forall m, m ∈ messages_tbl (replay pre db) -> conversation_id m <> id.
Proof.
  split.
  - destruct r1, r2; reflexivity.
  - intros pre post r Hlog.
    assert (Hpre : pre = [Sent (DeleteMessages id) Succeeds]).
    { destruct r1, r2; simpl in Hlog;
        destruct pre as [|e1 [|e2 [|e3 pre]]]; simplify_eq/=; try done;
        destruct pre; simplify_eq/=. }
    split; [exact Hpre|]. subst pre. simpl.
    intros m Hm. by eapply filter_not_elem.
Qed.

(** C10.  Delete is atomic on a failed message delete: if the store reports
    an error for deleting the messages, the tables are left as they were,
    the request to delete the row is never sent, and the function returns
    false; it returns true exactly when both requests succeeded. *)
Theorem delete_stops_on_message_failure :
  (r1 = Fails ->
   (deleteConversation db r1 r2 id).1.1 = false
   /\ (deleteConversation db r1 r2 id).1.2 = db
   /\ forall r, Sent (DeleteConversation id) r ∉ (deleteConversation db r1 r2 id).2)
  /\ ((deleteConversation db r1 r2 id).1.1 = true <->
      r1 = Succeeds /\ r2 = Succeeds).
Proof.
  split.
  - intros ->. simpl. repeat split.
    intros r Hin. apply list_elem_of_In in Hin. simpl in Hin.
    destruct Hin as [H|[H|[]]]; discriminate.
  - destruct r1, r2; simpl; split; try done; intros [? ?]; done.
Qed.

End DeleteConversation.

Lemma delete_messages_first_witness :
  (deleteConversation sample_db Succeeds Succeeds 7).2
  = [Sent (DeleteMessages 7) Succeeds]
    ++ Sent (DeleteConversation 7) Succeeds :: []
  /\ ([Sent (DeleteMessages 7) Succeeds] = [Sent (DeleteMessages 7) Succeeds]
      /\ forall m,
           m ∈ messages_tbl (replay [Sent (DeleteMessages 7) Succeeds] sample_db) ->
           conversation_id m <> 7).
Proof.
  assert (H : (deleteConversation sample_db Succeeds Succeeds 7).2
              = [Sent (DeleteMessages 7) Succeeds]
                ++ Sent (DeleteConversation 7) Succeeds :: []) by reflexivity.
  exact (conj H (proj2 (delete_messages_first sample_db Succeeds Succeeds 7)
                       _ _ _ H)).
Defined.

Lemma delete_stops_on_message_failure_witness :
  Fails = Fails
  /\ ((deleteConversation sample_db Fails Succeeds 7).1.1 = false
      /\ (deleteConversation sample_db Fails Succeeds 7).1.2 = sample_db
      /\ forall r, Sent (DeleteConversation 7) r
                   ∉ (deleteConversation sample_db Fails Succeeds 7).2).
Proof.
  exact (conj eq_refl
           (proj1 (delete_stops_on_message_failure sample_db Fails Succeeds 7)
                  eq_refl)).
Defined.

(** ** The title of a conversation *)

Lemma substring2_take (s : str) (n : nat) :
  (n <= length s)%nat -> substring2 s 0 (Z.of_nat n) = take n s.
Proof.
  intros Hn. unfold substring2.
  replace (Z.to_nat (Z.min (Z.max 0 0) (Z.of_nat (length s)))) with 0%nat by lia.
  replace (Z.to_nat (Z.min (Z.max 0 (Z.of_nat n)) (Z.of_nat (length s))))
    with n by lia.
  rewrite Nat.min_0_l, Nat.max_0_l, Nat.sub_0_r. done.
Qed.

(** The title [updateConversationTitleWithFirstMessage] derives: the
    message itself when it has at most 30 code units (in particular when it
    has exactly 30) and its first 30 code units followed by three full stops
    when it has more; this is the title a call of [handleSubmit] asks for
    when its closure holds a conversation id and an empty message list, and
    the title found in the row once the store has served the update. *)
Theorem first_message_title (content : str) :
  ((length content <= 30)%nat -> firstMessageTitle content = content)
  /\ ((30 < length content)%nat ->
      firstMessageTitle content = take 30 content ++ lit "...")
  /\ (forall s inv c ok,
        inv_pc inv = AwaitSaveUserMessage ->
        inv_conversationId inv = Some c ->
        inv_messages_length inv = 0%nat ->
        inv_content inv = content ->
        calls (fst (resume s inv (R_saveMessage ok)))
        = calls s ++ [Call_updateConversationTitle c (firstMessageTitle content)])
  /\ (forall db now id row,
        conversations db !! id = Some row ->
        title <$> conversations
                    (updateConversationTitleWithFirstMessage
                       db now Succeeds id content).1.2 !! id
        = Some (firstMessageTitle content)).
Proof.
  repeat split.
  - intros Hle. unfold firstMessageTitle.
    destruct (30 <? length content)%nat eqn:Hlt; [|done].
    apply Nat.ltb_lt in Hlt. lia.
  - intros Hlt. unfold firstMessageTitle.
    pose proof Hlt as Hlt'. apply Nat.ltb_lt in Hlt'. rewrite Hlt'.
    f_equal. apply (substring2_take content 30). lia.
  - intros s inv c ok Hpc Hc Hlen <-. unfold resume.
    by rewrite Hpc, Hc, Hlen.
  - intros db now id row Hrow. simpl.
    rewrite lookup_alter_eq, Hrow. done.
Qed.

Lemma first_message_title_witness :
  ((length thirty_units <= 30)%nat
   /\ firstMessageTitle thirty_units = thirty_units)
  /\ ((30 < length thirty_one_units)%nat
      /\ firstMessageTitle thirty_one_units
         = take 30 thirty_one_units ++ lit "...")
  /\ (inv_pc first_message_saved = AwaitSaveUserMessage
      /\ inv_conversationId first_message_saved = Some 7
      /\ inv_messages_length first_message_saved = 0%nat
      /\ inv_content first_message_saved = thirty_one_units
      /\ calls (fst (resume initial_session first_message_saved (R_saveMessage true)))
         = calls initial_session
           ++ [Call_updateConversationTitle 7 (firstMessageTitle thirty_one_units)])
  /\ (conversations sample_db !! 7
      = Some {| title := lit "New Conversation"; user_id := 1;
                created_at := 0; updated_at := 0 |}
      /\ title <$> conversations
                     (updateConversationTitleWithFirstMessage
                        sample_db 5 Succeeds 7 thirty_one_units).1.2 !! 7
         = Some (firstMessageTitle thirty_one_units)).
Proof.
  assert (H1 : (length thirty_units <= 30)%nat) by (vm_compute; lia).
  assert (H2 : (30 < length thirty_one_units)%nat) by (vm_compute; lia).
  assert (H3 : conversations sample_db !! 7
               = Some {| title := lit "New Conversation"; user_id := 1;
                         created_at := 0; updated_at := 0 |}) by reflexivity.
  destruct (first_message_title thirty_units) as (A & _).
  destruct (first_message_title thirty_one_units) as (_ & B & C & D).
  refine (conj (conj H1 (A H1)) (conj (conj H2 (B H2)) (conj _ (conj H3 (D _ _ _ _ H3))))).
  exact (conj eq_refl (conj eq_refl (conj eq_refl (conj eq_refl
           (C initial_session first_message_saved 7 true
              eq_refl eq_refl eq_refl eq_refl))))).
Defined.

Example title_of_31_units :
  firstMessageTitle thirty_one_units = lit "this one has thirty-one units....".
Proof. vm_compute; reflexivity. Qed.

(** C9.  The first message of a new conversation does not reach the title.
    On a page that has no conversation yet, whatever the message, the id
    the store hands back and the fragment streamed, the whole turn calls
    the key check, [createConversation], [generateStreamingResponse] and
    [loadUserInterests] and nothing else: [updateConversationTitle] is not
    called, so the conversation keeps the title it was created with,
    although the page holds the new id and no call is left running.  The
    test of [conversationId] that guards the title update reads the value
    the closure captured before [setConversationId].  A second message on
    that page is saved under the new id, and its turn does not ask for a
    title either, the message list being no longer empty. *)
Theorem new_conversation_keeps_its_title (content reply : str) (id : N) :
  calls (run initial_session (opening_turn content reply id))
  = [Call_hasApiKey; Call_createConversation;
     Call_generateStreamingResponse content; Call_loadUserInterests]
  /\ conversationId (ui (run initial_session (opening_turn content reply id)))
     = Some id
  /\ Idle (run initial_session (opening_turn content reply id))
  /\ forall (content2 reply2 : str) (ok ok' : bool),
       calls (run (run initial_session (opening_turn content reply id))
                (later_turn content2 reply2 ok ok'))
       = calls (run initial_session (opening_turn content reply id))
         ++ [Call_hasApiKey;
             Call_saveMessage id
               {| msg_id := 3; msg_role := user; msg_content := content2;
                  msg_timestamp := 0 |};
             Call_generateStreamingResponse content2;
             Call_saveMessage id
               {| msg_id := 4; msg_role := assistant; msg_content := reply2;
                  msg_timestamp := 0 |};
             Call_loadUserInterests].
Proof.
  split; [reflexivity|]. split; [reflexivity|]. split; [reflexivity|].
  intros content2 reply2 ok ok'. reflexivity.
Qed.

(** ** The busy guard *)

(** With the flag set, both ways of submitting leave the page as it is. *)
Lemma busy_rejects (s : session) (text : str) :
  isProcessing (ui s) = true ->
  step s (Submit text) = s /\ step s (FormSubmit text) = s.
Proof.
  intros Hbusy. simpl. unfold ChatInput_handleSubmit, handleSubmit.
  rewrite Hbusy, orb_true_r. done.
Qed.

Lemma solo_flag (s : session) :
  solo s ->
  match inflight s with
  | [] => isProcessing (ui s) = false
  | [inv] => isProcessing (ui s) = flag_of (inv_pc inv)
  | _ => False
  end.
Proof.
  induction 1 as [|s e Hs IH Hlen]; [done|].
  destruct s as [u l cs n k]; simpl in *.
  destruct l as [|inv [|inv2 l]]; [| |done].
  - (* idle *)
    destruct e as [text|text|i r|i chunk|]; simpl in *;
      unfold ChatInput_handleSubmit, handleSubmit in *; simpl in *;
      try rewrite IH in *; simpl in *; try done.
    by destruct (isEmpty (trim text)).
  - (* one turn running *)
    destruct e as [text|text|i r|i chunk|]; simpl in *;
      unfold ChatInput_handleSubmit, handleSubmit in *; simpl in *.
    + destruct (isEmpty (trim text)); simpl in *; [done|].
      destruct (isProcessing u) eqn:Hb; simpl in *; [by rewrite Hb | lia].
    + destruct (isProcessing u) eqn:Hb; simpl in *; [by rewrite Hb | lia].
    + destruct i as [|i]; simpl in *; [|by destruct i].
      destruct inv as [c cid len p ai fr]; simpl in *.
      destruct p, r as [[]|[?|]|?|?|[|?]]; simpl in *; try done;
        destruct cid; simpl in *; try done;
        destruct len; simpl in *; done.
    + destruct i as [|i]; simpl in *; [|by destruct i].
      destruct (inv_pc inv) eqn:Hp; simpl in *; try done.
      all: by rewrite Hp.
    + done.
Qed.

Lemma streaming_session_solo : solo streaming_session.
Proof.
  unfold streaming_session.
  repeat (apply solo_step; [|vm_compute; lia]). apply solo_initial.
Qed.

(** What the guard does achieve.  A new submission, from the form or from
    a button, is rejected whenever the busy flag [isProcessing] is set; and
    in a page where no two turns ever ran at once, the flag is set
    throughout the Streaming and AwaitingPersistAssistant phases of the
    running turn. *)
Theorem busy_guard (s : session) :
  (isProcessing (ui s) = true ->
   forall text, step s (Submit text) = s /\ step s (FormSubmit text) = s)
  /\ (solo s ->
      forall inv, inv ∈ inflight s ->
        phase_of (inv_pc inv) <> AwaitingPersistUser ->
        isProcessing (ui s) = true
        /\ forall text, step s (Submit text) = s /\ step s (FormSubmit text) = s).
Proof.
  split.
  - intros Hbusy text. by apply busy_rejects.
  - intros Hsolo inv Hin Hphase.
    assert (Hbusy : isProcessing (ui s) = true).
    { pose proof (solo_flag s Hsolo) as Hflag.
      destruct (inflight s) as [|inv' [|? ?]]; [by apply elem_of_nil in Hin| |done].
      apply list_elem_of_singleton in Hin as ->. rewrite Hflag.
      by destruct (inv_pc inv'). }
    split; [exact Hbusy|]. intros text. by apply busy_rejects.
Qed.

Lemma busy_guard_witness :
  (isProcessing (ui streaming_session) = true
   /\ forall text, step streaming_session (Submit text) = streaming_session
                   /\ step streaming_session (FormSubmit text) = streaming_session)
  /\ (solo streaming_session
      /\ forall inv, inv ∈ inflight streaming_session ->
           phase_of (inv_pc inv) <> AwaitingPersistUser ->
           isProcessing (ui streaming_session) = true
           /\ forall text,
                step streaming_session (Submit text) = streaming_session
                /\ step streaming_session (FormSubmit text) = streaming_session).
Proof.
  assert (H1 : isProcessing (ui streaming_session) = true) by reflexivity.
  split.
  - exact (conj H1 (proj1 (busy_guard streaming_session) H1)).
  - exact (conj streaming_session_solo
             (proj2 (busy_guard streaming_session) streaming_session_solo)).
Defined.

(** C7.  The busy flag is raised too late to guard a turn.  [handleSubmit]
    tests [isProcessing] on entry and sets it only after it has awaited the
    key check, the creation of the conversation, the save of the user
    message and the title update, and the [finally] of any call clears it.
    First: after a first turn has run to its end, a second submission is
    accepted and its user message is being saved; the page is not idle, its
    one running turn is in AwaitingPersistUser, the flag is not set; a
    third submission is then accepted, and both turns go on to stream at
    the same time.  Second: of two submissions made before the key check
    has answered, the first goes on to stream and the second ends for want
    of a conversation; its [finally] clears the flag, and a third
    submission is accepted while the first turn is in Streaming. *)
Theorem busy_flag_is_raised_too_late :
  (can_occur persisting_session
   /\ ~ Idle persisting_session
   /\ map (fun inv => phase_of (inv_pc inv)) (inflight persisting_session)
      = [AwaitingPersistUser]
   /\ isProcessing (ui persisting_session) = false
   /\ step persisting_session (Submit (lit "third")) <> persisting_session
   /\ map inv_content (inflight (step persisting_session (Submit (lit "third"))))
      = [lit "second"; lit "third"]
   /\ map (fun inv => phase_of (inv_pc inv))
          (inflight (run persisting_session
                       [Submit (lit "third"); Settle 0 (R_saveMessage true);
                        Settle 1 (R_hasApiKey true); Settle 1 (R_saveMessage true)]))
      = [Streaming; Streaming])
  /\ (can_occur overlapping_session
      /\ map (fun inv => (inv_content inv, phase_of (inv_pc inv)))
             (inflight overlapping_session)
         = [(lit "first", Streaming)]
      /\ isProcessing (ui overlapping_session) = false
      /\ map (fun inv => (inv_content inv, phase_of (inv_pc inv)))
             (inflight (step overlapping_session (FormSubmit (lit "third"))))
         = [(lit "first", Streaming); (lit "third", AwaitingPersistUser)]).
Proof.
  split.
  - split; [by eexists|]. repeat split; try (vm_compute; reflexivity).
    + vm_compute. discriminate.
    + intros Heq. apply (f_equal (fun s => length (inflight s))) in Heq.
      vm_compute in Heq. discriminate.
  - split; [by eexists|]. repeat split; vm_compute; reflexivity.
Qed.

(** * Further properties *)

(** ** The stream engine *)

(** X1.  What a pass of the loop hands to the callback is decided by the
    lines of its buffer alone: after the chunk is appended, every
    non-blank line that decodes to a text payload the runtime can turn
    into a string (no own [toString] key in it, no arrays nested beyond
    what the call stack takes) has that payload handed over, once per line
    and in the order of the lines, whatever was cut from the buffer on the
    way; a line whose payload makes [responseText += textChunk] throw
    hands nothing over. *)
Theorem pass_hands_over_line_payloads (st : stream_state) (chunk : str) :
  fragments (trace (process_chunk st chunk))
  = fragments (trace st)
    ++ omap payload_of (jsonObjects_of (fullJsonStr st ++ chunk)).
Proof. apply process_chunk_payloads. Qed.

(** X2.  A pass removes code units from the front of the buffer only, and
    a pass that hands nothing over removes none: the buffer is then the
    old buffer followed by the chunk, and nothing else has changed. *)
Theorem pass_cuts_from_the_front (st : stream_state) (chunk : str) :
  (exists k, fullJsonStr (process_chunk st chunk)
             = drop k (fullJsonStr st ++ chunk))
  /\ (fragments (trace (process_chunk st chunk)) = fragments (trace st) ->
      process_chunk st chunk = received st chunk).
Proof.
  destruct (process_chunk_emits st chunk) as (vs & _ & Ht & _ & He & k & Hk).
  split; [by exists k|].
  intros Hsame. apply He. simpl in Ht.
  rewrite Ht, fragments_app, fragments_OnChunk in Hsame.
  apply (f_equal length) in Hsame. rewrite length_app in Hsame.
  destruct vs; [done | simpl in Hsame; lia].
Qed.

Lemma process_stream_fragments chunks :
  exists vs,
    fragments (trace (process_stream chunks)) = vs
    /\ vs <> []
    /\ Forall (fun v => truthy (Val v) = true) vs.
Proof.
  destruct (parse_loop_emits chunks) as (vs & Hr & Ht & Hf & _).
  unfold process_stream, salvage.
  destruct (responseText_isEmpty (parse_loop chunks)) eqn:He.
  - destruct (salvage_emit_fold (textMatches (fullJsonStr (parse_loop chunks)))
                (parse_loop chunks)) as (_ & Hr' & Ht').
    set (ms := textMatches (fullJsonStr (parse_loop chunks))) in *.
    set (st := fold_left salvage_emit ms (parse_loop chunks)) in *.
    assert (Hms : Forall (fun v => truthy (Val v) = true)
                    (map (fun m => JStr (salvage_text m)) ms)).
    { apply Forall_forall. intros v Hin.
      apply list_elem_of_fmap in Hin as (m & -> & Hm).
      pose proof (salvage_text_nonempty _ m Hm) as Hne.
      simpl. by destruct (salvage_text m). }
    unfold fallback. destruct (responseText_isEmpty st) eqn:He'.
    + eexists. split; [reflexivity|]. simpl.
      rewrite fragments_app, Ht', Ht, fragments_app, !fragments_OnChunk.
      simpl. split; [by destruct (vs ++ _)|].
      apply Forall_app. split; [by apply Forall_app|].
      by constructor.
    + eexists. split; [reflexivity|].
      rewrite Ht', Ht, fragments_app, !fragments_OnChunk.
      split; [|by apply Forall_app].
      intros Hnil. unfold responseText_isEmpty in He'.
      rewrite Hr', Hr, Hnil in He'. done.
  - unfold fallback. rewrite He.
    eexists. split; [reflexivity|]. rewrite Ht, fragments_OnChunk.
    split; [|done]. intros ->. unfold responseText_isEmpty in He.
    by rewrite Hr in He.
Qed.

(** X3.  Nothing falsy reaches the callback: whatever the credential store
    and the answer of the endpoint, every value a call hands over is
    truthy, so never an empty string. *)
Theorem callback_never_gets_falsy (w : credential_store) (prompt : str)
    (answer : response) :
  Forall (fun v => truthy (Val v) = true /\ v <> JStr [])
         (emitted_by w prompt answer).
Proof.
  assert (Hweak : forall vs, Forall (fun v => truthy (Val v) = true) vs ->
            Forall (fun v => truthy (Val v) = true /\ v <> JStr []) vs).
  { intros vs Hvs. eapply Forall_impl; [exact Hvs|].
    intros v Hv. split; [done|]. by intros ->. }
  unfold emitted_by, generateStreamingResponse.
  destruct (getApiKey w) as [apiKey w'].
  destruct (isEmpty apiKey); [by constructor|].
  destruct answer as [m|m| |chunks|chunks m]; simpl; try by constructor.
  - destruct (process_stream_fragments chunks) as (vs & <- & _ & Hf).
    by apply Hweak.
  - destruct (parse_loop_emits chunks) as (vs & _ & Ht & Hf & _).
    fold (fragments (trace (parse_loop chunks) ++ [Toast (failed_prefix ++ m)])).
    rewrite fragments_app, Ht, fragments_OnChunk. simpl. rewrite app_nil_r.
    by apply Hweak.
Qed.

(** X4.  A call that resolves has called the callback at least once: the
    caller is never left with an empty response. *)
Theorem resolved_call_has_handed_over (w : credential_store) (prompt : str)
    (answer : response) :
  (generateStreamingResponse w prompt answer).1.1 = Resolved ->
  emitted_by w prompt answer <> [].
Proof.
  unfold emitted_by, generateStreamingResponse.
  destruct (getApiKey w) as [apiKey w'].
  destruct (isEmpty apiKey); [done|].
  destruct answer as [m|m| |chunks|chunks m]; simpl; try done.
  intros _. by destruct (process_stream_fragments chunks) as (vs & <- & Hne & _).
Qed.

Lemma fetches_app tr1 tr2 : fetches (tr1 ++ tr2) = fetches tr1 ++ fetches tr2.
Proof. unfold fetches. apply omap_app. Qed.

Lemma fetches_OnChunk vs : fetches (map OnChunk vs) = [].
Proof. induction vs as [|v vs IH]; simpl; done. Qed.

Lemma process_stream_fetches chunks : fetches (trace (process_stream chunks)) = [].
Proof.
  destruct (before_fallback chunks) as (vs & _ & Ht & _).
  unfold process_stream, fallback.
  destruct (responseText_isEmpty _); simpl; rewrite ?fetches_app, Ht, fetches_OnChunk;
    done.
Qed.

(** X5.  The endpoint is asked once when a key resolves, with that key and
    the prompt, and never otherwise; the call resolves exactly when a key
    resolves and the body is read to its end; and when there is no body to
    read (no answer, a status that is not a success, an empty body) nothing
    is handed to the callback. *)
Theorem call_outcome (w : credential_store) (prompt : str) (answer : response) :
  fetches (generateStreamingResponse w prompt answer).1.2
  = (if isEmpty (fst (getApiKey w)) then [] else [(fst (getApiKey w), prompt)])
  /\ ((generateStreamingResponse w prompt answer).1.1 = Resolved <->
      fst (getApiKey w) <> [] /\ exists chunks, answer = Body chunks)
  /\ (emitted_by w prompt answer <> [] ->
      exists chunks, answer = Body chunks \/ exists m, answer = BrokenBody chunks m).
Proof.
  unfold emitted_by, generateStreamingResponse.
  destruct (getApiKey w) as [apiKey w']. simpl fst.
  destruct apiKey as [|c k]; simpl isEmpty; cbv iota.
  { simpl. repeat split; try done. by intros [? _]. }
  destruct answer as [m|m| |chunks|chunks m]; simpl.
  - repeat split; try done. by intros (_ & ? & ?).
  - repeat split; try done. by intros (_ & ? & ?).
  - repeat split; try done. by intros (_ & ? & ?).
  - rewrite process_stream_fetches. repeat split; eauto.
  - destruct (parse_loop_emits chunks) as (vs & _ & Ht & _).
    fold (fetches (trace (parse_loop chunks) ++ [Toast (failed_prefix ++ m)])).
    rewrite fetches_app, Ht, fetches_OnChunk. simpl.
    repeat split; try done; eauto. by intros (_ & ? & ?).
Qed.

(** X6.  Once the loop has handed over a decoded text, neither the salvage
    pass nor the fallback adds anything: what the call hands over is what
    the loop handed over. *)
Theorem decoded_text_ends_the_output (w : credential_store) (prompt : str)
    (chunks : list str) :
  fst (getApiKey w) <> [] ->
  (exists s, JStr s ∈ fragments (trace (parse_loop chunks))) ->
  emitted_by w prompt (Body chunks) = fragments (trace (parse_loop chunks)).
Proof.
  intros Hkey [s Hs]. rewrite (emitted_by_body w prompt chunks Hkey).
  destruct (parse_loop_emits chunks) as (vs & Hr & Ht & Hf & _).
  rewrite Ht, fragments_OnChunk in Hs.
  assert (He : responseText_isEmpty (parse_loop chunks) = false).
  { unfold responseText_isEmpty. rewrite Hr.
    apply (forallb_toString_nonempty vs (JStr s) Hs).
    rewrite Forall_forall in Hf. by apply truthy_string_nonempty, Hf. }
  unfold process_stream, salvage. rewrite He. unfold fallback. by rewrite He.
Qed.

Lemma silent_loop_state chunks :
  fragments (trace (parse_loop chunks)) = [] ->
  parse_loop chunks
  = {| fullJsonStr := concat chunks; responseText := []; trace := [] |}.
Proof.
  intros Hnone.
  destruct (parse_loop_emits chunks) as (vs & Hr & Ht & _ & Hb).
  rewrite Ht, fragments_OnChunk in Hnone. subst vs.
  specialize (Hb eq_refl). simpl in Ht.
  destruct (parse_loop chunks) as [b r t]. simpl in *. by subst.
Qed.

(** X7.  Where the loop decodes nothing, the way the stream was cut into
    reads does not matter: two deliveries of the same input on which the
    loop stays silent hand over the same fragments. *)
Theorem silent_streams_are_chunking_invariant (w : credential_store)
    (prompt : str) (chunks1 chunks2 : list str) :
  concat chunks1 = concat chunks2 ->
  fragments (trace (parse_loop chunks1)) = [] ->
  fragments (trace (parse_loop chunks2)) = [] ->
  emitted_by w prompt (Body chunks1) = emitted_by w prompt (Body chunks2).
Proof.
  intros Hcat H1 H2. unfold emitted_by, generateStreamingResponse.
  destruct (getApiKey w) as [apiKey w'].
  destruct (isEmpty apiKey); [done|]. simpl. f_equal. unfold process_stream.
  by rewrite (silent_loop_state _ H1), (silent_loop_state _ H2), Hcat.
Qed.

(** ** The credential store and the key dialog *)

Lemma trim_nonempty (s : str) : trim s <> [] -> s <> [].
Proof. intros H ->. by apply H. Qed.

(** X8.  A key that was set is the key that resolves: after [setApiKey]
    with a non-empty key, [getApiKey] returns that key and changes nothing,
    and [hasApiKey] is true, whatever the store held before. *)
Theorem set_key_resolves (w : credential_store) (key : str) :
  key <> [] ->
  getApiKey (setApiKey w key) = (key, setApiKey w key)
  /\ hasApiKey (setApiKey w key) = true.
Proof.
  intros Hkey. unfold hasApiKey, getApiKey. simpl.
  destruct key; [done|]. done.
Qed.

Lemma set_key_resolves_witness :
  lit "k3y" <> []
  /\ getApiKey (setApiKey no_credential (lit "k3y"))
     = (lit "k3y", setApiKey no_credential (lit "k3y"))
  /\ hasApiKey (setApiKey no_credential (lit "k3y")) = true.
Proof.
  assert (H : lit "k3y" <> []) by (vm_compute; discriminate).
  exact (conj H (set_key_resolves no_credential (lit "k3y") H)).
Defined.

(** X9.  Resolution caches its result and touches nothing else: the key
    [getApiKey] returns is the one it leaves in the module variable
    [GEMINI_API_KEY], a second [getApiKey] returns the key of the first and
    leaves the store as the first left it, and neither the default key nor
    local storage is ever written by it. *)
Theorem resolution_is_cached (w : credential_store) :
  GEMINI_API_KEY (getApiKey w).2 = (getApiKey w).1
  /\ getApiKey (getApiKey w).2 = getApiKey w
  /\ default_api_key (getApiKey w).2 = default_api_key w
  /\ stored_key (getApiKey w).2 = stored_key w.
Proof.
  assert (Hne : forall o k, nonEmptyKey o = Some k -> isEmpty k = false).
  { intros [k'|] k; simpl; [|done]. destruct k'; simpl; [done|].
    by intros [= <-]. }
  unfold getApiKey.
  destruct (isEmpty (GEMINI_API_KEY w)) eqn:Hc; simpl.
  - destruct (nonEmptyKey (default_api_key w)) as [dbKey|] eqn:Hdb; simpl.
    + by rewrite (Hne _ _ Hdb).
    + destruct (nonEmptyKey (stored_key w)) as [storedKey|] eqn:Hst; simpl.
      * by rewrite (Hne _ _ Hst).
      * by rewrite Hc, Hdb, Hst.
  - by rewrite Hc.
Qed.

(** X10.  What survives a reload: after [setApiKey] with a non-empty key
    and a fresh load of the module, the key that resolves is the default
    key of the remote store if that one is non-empty, and the key that was
    set only if there is no such default. *)
Theorem key_after_reload (w : credential_store) (key : str) :
  key <> [] ->
  fst (getApiKey (reload (setApiKey w key)))
  = match nonEmptyKey (default_api_key w) with
    | Some dbKey => dbKey
    | None => key
    end.
Proof.
  intros Hkey. unfold getApiKey. simpl.
  destruct (nonEmptyKey (default_api_key w)); [done|].
  destruct key; [done|]. done.
Qed.

Lemma key_after_reload_witness :
  lit "mine" <> []
  /\ fst (getApiKey (reload (setApiKey
            {| GEMINI_API_KEY := []; default_api_key := Some (lit "shared");
               stored_key := None |} (lit "mine"))))
     = lit "shared".
Proof.
  assert (H : lit "mine" <> []) by (vm_compute; discriminate).
  exact (conj H (key_after_reload
                   {| GEMINI_API_KEY := []; default_api_key := Some (lit "shared");
                      stored_key := None |} (lit "mine") H)).
Defined.

(** X11.  The key dialog: a blank input changes no key, shows the one
    notice that asks for a valid key and leaves the dialog open; any other
    input is in force from then on, untrimmed, even when writing it to
    local storage fails; the one notice shown is then the success notice if
    the write went through and the failure notice if not, and the dialog
    closes exactly when the write went through. *)
Theorem key_dialog_submit (w : credential_store) (apiKey : str)
    (storage_ok : bool) :
  (trim apiKey = [] ->
   kd_store (ApiKeyModal_handleSubmit w apiKey storage_ok) = w
   /\ kd_notices (ApiKeyModal_handleSubmit w apiKey storage_ok)
      = [NoticeError (lit "Please enter a valid API key")]
   /\ kd_closed (ApiKeyModal_handleSubmit w apiKey storage_ok) = false)
  /\ (trim apiKey <> [] ->
      fst (getApiKey (kd_store (ApiKeyModal_handleSubmit w apiKey storage_ok)))
      = apiKey
      /\ hasApiKey (kd_store (ApiKeyModal_handleSubmit w apiKey storage_ok)) = true
      /\ kd_notices (ApiKeyModal_handleSubmit w apiKey storage_ok)
         = [if storage_ok
            then NoticeSuccess (lit "API key saved successfully")
            else NoticeError (lit "Failed to save API key")]
      /\ kd_closed (ApiKeyModal_handleSubmit w apiKey storage_ok) = storage_ok).
Proof.
  unfold ApiKeyModal_handleSubmit. split.
  - intros ->. done.
  - intros Hne. pose proof (trim_nonempty _ Hne) as Hkey.
    destruct (trim apiKey); [done|]. simpl isEmpty. cbv iota.
    unfold hasApiKey, getApiKey.
    destruct storage_ok; simpl; destruct apiKey; done.
Qed.

Lemma key_dialog_submit_witness :
  (trim (lit "   ") = []
   /\ kd_store (ApiKeyModal_handleSubmit with_credential (lit "   ") true)
      = with_credential
   /\ kd_notices (ApiKeyModal_handleSubmit with_credential (lit "   ") true)
      = [NoticeError (lit "Please enter a valid API key")]
   /\ kd_closed (ApiKeyModal_handleSubmit with_credential (lit "   ") true)
      = false)
  /\ (trim (lit " k3y ") <> []
      /\ fst (getApiKey (kd_store
                (ApiKeyModal_handleSubmit no_credential (lit " k3y ") false)))
         = lit " k3y "
      /\ hasApiKey (kd_store
                (ApiKeyModal_handleSubmit no_credential (lit " k3y ") false))
         = true
      /\ kd_notices (ApiKeyModal_handleSubmit no_credential (lit " k3y ") false)
         = [if false
            then NoticeSuccess (lit "API key saved successfully")
            else NoticeError (lit "Failed to save API key")]
      /\ kd_closed (ApiKeyModal_handleSubmit no_credential (lit " k3y ") false)
         = false).
Proof.
  assert (H1 : trim (lit "   ") = []) by (vm_compute; reflexivity).
  assert (H2 : trim (lit " k3y ") <> []) by (vm_compute; discriminate).
  split.
  - exact (conj H1 (proj1 (key_dialog_submit with_credential (lit "   ") true) H1)).
  - exact (conj H2 (proj2 (key_dialog_submit no_credential (lit " k3y ") false) H2)).
Defined.

(** ** More of the conversation store *)

Lemma filter_other_conversation (c id : N) (l : list message_row) :
  c <> id ->
  List.filter (fun m => conversation_id m =? c)
    (List.filter (fun m => negb (conversation_id m =? id)) l)
  = List.filter (fun m => conversation_id m =? c) l.
Proof.
  intros Hne. induction l as [|m l IH]; simpl; [done|].
  destruct (conversation_id m =? id) eqn:Hid; simpl.
  - apply N.eqb_eq in Hid.
    replace (conversation_id m =? c) with false; [done|].
    symmetry. apply N.eqb_neq. congruence.
  - destruct (conversation_id m =? c); by rewrite IH.
Qed.

(** X12.  [saveMessage] reports the insert alone: it returns true exactly
    when the insert succeeded, whether or not the conversation's timestamp
    could then be updated; a failed insert leaves the tables as they were;
    a successful one appends the message as the last row, with the role,
    content and timestamp it was given, and changes no title and no set of
    conversations. *)
Theorem saveMessage_effect (db : database) (now : N) (r1 r2 : reply)
    (conversationId : N) (message : Message) :
  ((saveMessage db now r1 r2 conversationId message).1 = true <-> r1 = Succeeds)
  /\ (r1 = Fails -> (saveMessage db now r1 r2 conversationId message).2 = db)
  /\ (r1 = Succeeds ->
      messages_tbl (saveMessage db now r1 r2 conversationId message).2
      = messages_tbl db
        ++ [{| conversation_id := conversationId;
               row_role := msg_role message;
               row_content := msg_content message;
               row_timestamp := msg_timestamp message |}]
      /\ forall c,
           title <$> conversations
                       (saveMessage db now r1 r2 conversationId message).2 !! c
           = title <$> conversations db !! c).
Proof.
  split; [|split].
  - destruct r1; simpl; split; done.
  - by intros ->.
  - intros ->. destruct r2; simpl; (split; [done|]); intros c; [|done].
    rewrite lookup_alter. case_decide; [subst c|done].
    by destruct (conversations db !! conversationId).
Qed.

Lemma saveMessage_effect_witness :
  (Fails = Fails
   /\ (saveMessage sample_db 5 Fails Succeeds 7
         {| msg_id := 3; msg_role := user; msg_content := lit "second";
            msg_timestamp := 4 |}).2 = sample_db)
  /\ (Succeeds = Succeeds
      /\ messages_tbl
           (saveMessage sample_db 5 Succeeds Fails 7
              {| msg_id := 3; msg_role := user; msg_content := lit "second";
                 msg_timestamp := 4 |}).2
         = messages_tbl sample_db
           ++ [{| conversation_id := 7; row_role := user;
                  row_content := lit "second"; row_timestamp := 4 |}]
      /\ forall c,
           title <$> conversations
                       (saveMessage sample_db 5 Succeeds Fails 7
                          {| msg_id := 3; msg_role := user;
                             msg_content := lit "second";
                             msg_timestamp := 4 |}).2 !! c
           = title <$> conversations sample_db !! c).
Proof.
  split.
  - exact (conj eq_refl
             (proj1 (proj2 (saveMessage_effect sample_db 5 Fails Succeeds 7
                              {| msg_id := 3; msg_role := user;
                                 msg_content := lit "second";
                                 msg_timestamp := 4 |})) eq_refl)).
  - exact (conj eq_refl
             (proj2 (proj2 (saveMessage_effect sample_db 5 Succeeds Fails 7
                              {| msg_id := 3; msg_role := user;
                                 msg_content := lit "second";
                                 msg_timestamp := 4 |})) eq_refl)).
Defined.

(** X13.  Deleting one conversation never touches another: whatever the
    store replies, every other conversation row and the messages of every
    other conversation, in their order, are after [deleteConversation] what
    they were before. *)
Theorem delete_leaves_other_conversations (db : database) (r1 r2 : reply)
    (id c : N) :
  c <> id ->
  conversations (deleteConversation db r1 r2 id).1.2 !! c = conversations db !! c
  /\ List.filter (fun m => conversation_id m =? c)
       (messages_tbl (deleteConversation db r1 r2 id).1.2)
     = List.filter (fun m => conversation_id m =? c) (messages_tbl db).
Proof.
  intros Hne. destruct r1, r2; simpl; (split; [|by try apply filter_other_conversation]);
    try done.
  by apply lookup_delete_ne.
Qed.

Lemma delete_leaves_other_conversations_witness :
  (8 : N) <> 7
  /\ conversations (deleteConversation sample_db Succeeds Succeeds 7).1.2 !! 8
     = conversations sample_db !! 8
  /\ List.filter (fun m => conversation_id m =? 8)
       (messages_tbl (deleteConversation sample_db Succeeds Succeeds 7).1.2)
     = List.filter (fun m => conversation_id m =? 8) (messages_tbl sample_db).
Proof.
  assert (H : (8 : N) <> 7) by discriminate.
  exact (conj H (delete_leaves_other_conversations sample_db Succeeds Succeeds
                   7 8 H)).
Defined.

(** X14.  A deletion reported as done is done: when [deleteConversation]
    returns true, the conversation has no row and no message left. *)
Theorem deleted_means_gone (db : database) (r1 r2 : reply) (id : N) :
  (deleteConversation db r1 r2 id).1.1 = true ->
  conversations (deleteConversation db r1 r2 id).1.2 !! id = None
  /\ forall m, m ∈ messages_tbl (deleteConversation db r1 r2 id).1.2 ->
               conversation_id m <> id.
Proof.
  destruct r1, r2; simpl; try done. intros _. split.
  - apply lookup_delete_eq.
  - intros m Hm. by eapply filter_not_elem.
Qed.

Lemma deleted_means_gone_witness :
  (deleteConversation sample_db Succeeds Succeeds 7).1.1 = true
  /\ conversations (deleteConversation sample_db Succeeds Succeeds 7).1.2 !! 7
     = None
  /\ forall m,
       m ∈ messages_tbl (deleteConversation sample_db Succeeds Succeeds 7).1.2 ->
       conversation_id m <> 7.
Proof.
  exact (conj eq_refl (deleted_means_gone sample_db Succeeds Succeeds 7 eq_refl)).
Defined.

(** X15.  A deletion is not undone when its second request fails: if the
    messages were deleted and the store then reports an error for the row,
    [deleteConversation] returns false and shows its notice, the row is
    still what it was, and the messages of the conversation are gone. *)
Theorem failed_row_delete_keeps_empty_conversation (db : database) (r1 r2 : reply)
    (id : N) :
  r1 = Succeeds -> r2 = Fails ->
  (deleteConversation db r1 r2 id).1.1 = false
  /\ ToastError (lit "Failed to delete conversation")
     ∈ (deleteConversation db r1 r2 id).2
  /\ conversations (deleteConversation db r1 r2 id).1.2 !! id
     = conversations db !! id
  /\ forall m, m ∈ messages_tbl (deleteConversation db r1 r2 id).1.2 ->
               conversation_id m <> id.
Proof.
  intros -> ->. simpl. repeat split.
  - apply list_elem_of_In. simpl. auto.
  - intros m Hm. by eapply filter_not_elem.
Qed.

Lemma failed_row_delete_keeps_empty_conversation_witness :
  Succeeds = Succeeds /\ Fails = Fails
  /\ (deleteConversation sample_db Succeeds Fails 7).1.1 = false
  /\ ToastError (lit "Failed to delete conversation")
     ∈ (deleteConversation sample_db Succeeds Fails 7).2
  /\ conversations (deleteConversation sample_db Succeeds Fails 7).1.2 !! 7
     = conversations sample_db !! 7
  /\ forall m,
       m ∈ messages_tbl (deleteConversation sample_db Succeeds Fails 7).1.2 ->
       conversation_id m <> 7.
Proof.
  exact (conj eq_refl (conj eq_refl
           (failed_row_delete_keeps_empty_conversation sample_db Succeeds Fails 7
              eq_refl eq_refl))).
Defined.

(** X16.  What a title update changes: served by the store, it gives the
    row of that id the new title and the instant of the call, keeps its
    owner and its creation time, and leaves every other row and all
    messages alone; and for an id that has no row it still returns true,
    without a notice, having changed nothing. *)
Theorem title_update_effect (db : database) (now : N) (id : N) (new_title : str) :
  (forall c,
     conversations (updateConversationTitle db now Succeeds id new_title).1.2 !! c
     = if decide (c = id)
       then (fun r => {| title := new_title; user_id := user_id r;
                         created_at := created_at r; updated_at := now |})
            <$> conversations db !! id
       else conversations db !! c)
  /\ messages_tbl (updateConversationTitle db now Succeeds id new_title).1.2
     = messages_tbl db
  /\ (conversations db !! id = None ->
      updateConversationTitle db now Succeeds id new_title
      = (true, db, [Sent (UpdateConversation id new_title now) Succeeds])).
Proof.
  split; [|split].
  - intros c. simpl. rewrite lookup_alter.
    case_decide; case_decide; try done; congruence.
  - done.
  - intros Hnone. simpl. do 2 f_equal.
    destruct db as [cs ms]. simpl in *. f_equal.
    apply map_eq. intros c. rewrite lookup_alter.
    case_decide; [subst c; by rewrite Hnone | done].
Qed.

Lemma title_update_effect_witness :
  conversations sample_db !! 8 = None
  /\ updateConversationTitle sample_db 5 Succeeds 8 (lit "Renamed")
     = (true, sample_db, [Sent (UpdateConversation 8 (lit "Renamed") 5) Succeeds]).
Proof.
  assert (H : conversations sample_db !! 8 = None) by reflexivity.
  exact (conj H (proj2 (proj2 (title_update_effect sample_db 5 8 (lit "Renamed")))
                   H)).
Defined.

(** X17.  The list of conversations puts a freshly renamed one first: after
    a title update served at an instant later than the last update of every
    other conversation of the user, whatever list [getUserConversations]
    returns for that user starts with the renamed conversation, under its
    new title. *)
Theorem renamed_conversation_is_listed_first (db : database) (now uid id : N)
    (new_title : str) (row : conversation_row)
    (l : list (N * conversation_row)) :
  conversations db !! id = Some row ->
  user_id row = uid ->
  (forall c r, c <> id -> conversations db !! c = Some r -> user_id r = uid ->
               updated_at r < now) ->
  getUserConversations_returns (Some uid) Succeeds
    (updateConversationTitle db now Succeeds id new_title).1.2 l ->
  exists rest,
    l = (id, {| title := new_title; user_id := uid;
                created_at := created_at row; updated_at := now |}) :: rest.
Proof.
  intros Hrow Huid Hold [Hperm Hsorted]. simpl in Hperm.
  set (row' := {| title := new_title; user_id := uid;
                  created_at := created_at row; updated_at := now |}).
  set (cs' := alter (fun r => {| title := new_title; user_id := user_id r;
                                 created_at := created_at r; updated_at := now |})
                    id (conversations db)) in *.
  assert (Hid : cs' !! id = Some row').
  { unfold cs'. rewrite lookup_alter_eq, Hrow. simpl. unfold row'. by rewrite Huid. }
  assert (Hin : forall c r, (c, r) ∈ l <-> cs' !! c = Some r /\ user_id r = uid).
  { intros c r. rewrite Hperm. unfold owned_by. simpl.
    rewrite list_elem_of_filter, elem_of_map_to_list. simpl. tauto. }
  assert (He : (id, row') ∈ l) by (by apply Hin).
  destruct l as [|[hc hr] rest]; [by apply elem_of_nil in He|].
  exists rest. f_equal.
  destruct (decide (hc = id)) as [->|Hne].
  - f_equal. assert (Hh : (id, hr) ∈ (id, hr) :: rest) by left.
    apply Hin in Hh as [Hh _]. congruence.
  - exfalso.
    assert (Hh : (hc, hr) ∈ (hc, hr) :: rest) by left.
    apply Hin in Hh as [Hh Hu]. unfold cs' in Hh.
    rewrite lookup_alter_ne in Hh by done.
    pose proof (Hold hc hr Hne Hh Hu) as Hlt.
    apply elem_of_cons in He as [[= ? _]|He]; [done|].
    apply StronglySorted_inv in Hsorted as [_ Hall].
    rewrite Forall_forall in Hall. specialize (Hall _ He). simpl in Hall. lia.
Qed.

Lemma listing_after_rename_returned :
  getUserConversations_returns (Some 1) Succeeds
    (updateConversationTitle two_conversations 10 Succeeds 7 (lit "Renamed")).1.2
    listing_after_rename.
Proof.
  split.
  - replace (owned_by 1 (updateConversationTitle two_conversations 10 Succeeds 7
                           (lit "Renamed")).1.2)
      with (reverse listing_after_rename) by (vm_compute; reflexivity).
    symmetry. apply reverse_Permutation.
  - unfold listing_after_rename, newest_first.
    repeat constructor; simpl; lia.
Qed.

Lemma two_conversations_older :
  forall c r, c <> 7 -> conversations two_conversations !! c = Some r ->
              user_id r = 1 -> updated_at r < 10.
Proof.
  intros c r Hne Hc _. unfold two_conversations in Hc. simpl in Hc.
  apply lookup_insert_Some in Hc as [[<- _]|[_ Hc]]; [done|].
  apply lookup_singleton_Some in Hc as [_ <-]. simpl. lia.
Qed.

Lemma renamed_conversation_is_listed_first_witness :
  conversations two_conversations !! 7
  = Some {| title := lit "New Conversation"; user_id := 1;
            created_at := 0; updated_at := 3 |}
  /\ user_id {| title := lit "New Conversation"; user_id := 1;
                created_at := 0; updated_at := 3 |} = 1
  /\ (forall c r, c <> 7 -> conversations two_conversations !! c = Some r ->
                  user_id r = 1 -> updated_at r < 10)
  /\ getUserConversations_returns (Some 1) Succeeds
       (updateConversationTitle two_conversations 10 Succeeds 7
          (lit "Renamed")).1.2
       listing_after_rename
  /\ exists rest,
       listing_after_rename
       = (7, {| title := lit "Renamed"; user_id := 1;
                created_at := 0; updated_at := 10 |}) :: rest.
Proof.
  assert (H : conversations two_conversations !! 7
              = Some {| title := lit "New Conversation"; user_id := 1;
                        created_at := 0; updated_at := 3 |})
    by (vm_compute; reflexivity).
  exact (conj H (conj eq_refl (conj two_conversations_older
           (conj listing_after_rename_returned
              (renamed_conversation_is_listed_first two_conversations 10 1 7
                 (lit "Renamed") _ listing_after_rename H eq_refl
                 two_conversations_older listing_after_rename_returned))))).
Defined.

(** ** More of the session controller *)







Lemma resume_keeps_closure (s : session) (inv inv' : invocation) (r : result) :
  (resume s inv r).2 = Some inv' ->
  inv_conversationId inv' = inv_conversationId inv
  /\ inv_content inv' = inv_content inv.
Proof.
  destruct inv as [c cid len p ai fr]. unfold resume. simpl.
  destruct p, r as [[]|[?|]|?|?|[|?]], cid as [cid0|], len as [|len0]; simpl;
    intros [= <-]; done.
Qed.

Lemma resume_without_conversation (s : session) (inv : invocation) (r : result) :
  inv_conversationId inv = None ->
  forall c, c ∈ calls (resume s inv r).1 -> c ∈ calls s \/ is_write c = false.
Proof.
  intros Hnone. destruct inv as [c cid len p ai fr]. simpl in Hnone. subst cid.
  unfold resume. simpl.
  destruct p, r as [[]|[?|]|?|?|[|?]], len as [|len0]; simpl;
    intros c0 Hc0; try (by left);
    repeat (apply elem_of_app in Hc0 as [Hc0|Hc0]; [|
      apply list_elem_of_singleton in Hc0 as ->; by right]);
    by left.
Qed.

(** X19.  The turn that finds no conversation id in its closure writes
    nothing to the remote store: however it is resumed, up to its end, it
    calls neither [saveMessage] nor [updateConversationTitle], not even
    after [createConversation] has returned the new id.  The first exchange
    of a new chat is streamed and shown, not saved. *)
Theorem turn_without_conversation_saves_nothing (rs : list result) :
  forall (s : session) (inv : invocation),
  inv_conversationId inv = None ->
  forall c, c ∈ calls (resume_with s inv rs) -> c ∈ calls s \/ is_write c = false.
Proof.
  induction rs as [|r rs IH]; intros s inv Hnone c Hc; simpl in Hc; [by left|].
  pose proof (resume_without_conversation s inv r Hnone) as Hstep.
  pose proof (fun inv' => resume_keeps_closure s inv inv' r) as Hkeep.
  destruct (resume s inv r) as [s' [inv'|]]; simpl in *.
  - destruct (Hkeep inv' eq_refl) as [Hcid _]. rewrite Hnone in Hcid.
    destruct (IH s' inv' Hcid c Hc) as [Hc'|Hw]; [by apply Hstep | by right].
  - by apply Hstep.
Qed.

Lemma turn_without_conversation_saves_nothing_witness :
  inv_conversationId first_submission = None
  /\ forall c,
       c ∈ calls (resume_with initial_session first_submission
                    [R_hasApiKey true; R_createConversation (Some 7);
                     R_stream Resolved]) ->
       c ∈ calls initial_session \/ is_write c = false.
Proof.
  exact (conj eq_refl
           (turn_without_conversation_saves_nothing
              [R_hasApiKey true; R_createConversation (Some 7); R_stream Resolved]
              initial_session first_submission eq_refl)).
Defined.

(** ** The stream callback of the page *)

Lemma onChunks_cons (s : session) (inv : invocation) (chunk : str)
    (chunks : list str) :
  onChunks s inv (chunk :: chunks)
  = onChunks (onChunk s inv chunk).1 (onChunk s inv chunk).2 chunks.
Proof. reflexivity. Qed.

Lemma with_reply_twice (responseId : N) (a b : str) (msg : Message) :
  with_reply responseId b (with_reply responseId a msg)
  = with_reply responseId b msg.
Proof.
  unfold with_reply. destruct (msg_id msg =? responseId) eqn:Hid; simpl.
  - by rewrite Hid.
  - by rewrite Hid.
Qed.


(** X20.  The fragments of a stream add up: after the callback has run for
    one fragment after the other, the reply gathered is the reply so far
    followed by all of the fragments, the message list is the earlier one
    with that text as the content of the message that has the reply's id
    and every other message as it was, and the page has called nothing. *)
Theorem stream_callback_accumulates (chunks : list str) :
  forall (s : session) (inv : invocation) (chunk : str),
  inv_fullResponse (onChunks s inv (chunk :: chunks)).2
  = inv_fullResponse inv ++ concat (chunk :: chunks)
  /\ messages (ui (onChunks s inv (chunk :: chunks)).1)
     = map (with_reply (msg_id (inv_aiMessage inv))
              (inv_fullResponse inv ++ concat (chunk :: chunks)))
           (messages (ui s))
  /\ calls (onChunks s inv (chunk :: chunks)).1 = calls s.
Proof.
  induction chunks as [|c2 chunks IH]; intros s inv chunk.
  - simpl. by rewrite app_nil_r.
  - rewrite onChunks_cons.
    destruct (IH (onChunk s inv chunk).1 (onChunk s inv chunk).2 c2)
      as (H1 & H2 & H3).
    rewrite H1, H2, H3. simpl.
    rewrite <- !app_assoc. split; [done|]. split; [|done].
    rewrite map_map. apply map_ext. intros msg.
    apply with_reply_twice.
Qed.



(** ** [trim], the form and the rendered content *)

Lemma trimStart_head (s : str) (c : N) (t : str) :
  trimStart s = c :: t -> isWhiteSpace c = false.
Proof.
  induction s as [|a s IH]; simpl; [done|].
  destruct (isWhiteSpace a) eqn:Ha; [done|]. by intros [= <- _].
Qed.

Lemma trimStart_idemp (s : str) : trimStart (trimStart s) = trimStart s.
Proof.
  destruct (trimStart s) as [|c t] eqn:Hs; [done|].
  simpl. by rewrite (trimStart_head s c t Hs).
Qed.

Lemma trimEnd_split (s : str) : exists w, s = trimEnd s ++ w.
Proof.
  unfold trimEnd. destruct (trimStart_split (rev s)) as (w & Hw & _).
  exists (rev w). rewrite <- rev_app_distr, <- Hw. by rewrite rev_involutive.
Qed.

Lemma trim_split (s : str) : exists w1 w2, s = w1 ++ trim s ++ w2.
Proof.
  unfold trim. destruct (trimStart_split s) as (w1 & Hw1 & _).
  destruct (trimEnd_split (trimStart s)) as (w2 & Hw2).
  exists w1, w2. by rewrite <- Hw2.
Qed.

Lemma trim_idemp (s : str) : trim (trim s) = trim s.
Proof.
  unfold trim, trimEnd.
  assert (Hfront : trimStart (rev (trimStart (rev (trimStart s))))
                   = rev (trimStart (rev (trimStart s)))).
  { destruct (trimStart_split (rev (trimStart s))) as (w & Hw & _).
    destruct (rev (trimStart (rev (trimStart s)))) as [|c r] eqn:Hr; [done|].
    apply (f_equal (@rev N)) in Hw.
    rewrite rev_involutive, rev_app_distr, Hr in Hw. simpl in Hw.
    simpl. by rewrite (trimStart_head s c _ Hw). }
  rewrite Hfront, rev_involutive. by rewrite trimStart_idemp.
Qed.

Lemma elem_of_delete_in {A} (l : list A) (i : nat) (w : A) :
  w ∈ delete i l -> w ∈ l.
Proof.
  revert i. induction l as [|a l IH]; intros i Hw; [by destruct i|].
  destruct i as [|i]; simpl in Hw; [by right|].
  apply elem_of_cons in Hw as [->|Hw]; [by left|]. right. by eapply IH.
Qed.

Lemma resume_prompts (s : session) (inv : invocation) (r : result) (c : call) :
  c ∈ calls (resume s inv r).1 ->
  c ∈ calls s
  \/ c = Call_generateStreamingResponse (inv_content inv)
  \/ (forall p, c <> Call_generateStreamingResponse p).
Proof.
  destruct inv as [ct cid len p ai fr]. unfold resume. simpl.
  destruct p, r as [[]|[?|]|?|?|[|?]], cid as [cid0|], len as [|len0]; simpl;
    intros Hc; try (by left);
    repeat (apply elem_of_app in Hc as [Hc|Hc]; [|
      apply list_elem_of_singleton in Hc as ->; right;
      first [left; reflexivity | right; intros q; discriminate]]);
    by left.
Qed.

(** X22.  The form never sends a blank or padded prompt: on a page driven
    by form submissions only, every prompt handed to
    [generateStreamingResponse] has something in it and no white space
    around it. *)
Theorem form_prompts_are_trimmed (es : list input) (p : str) :
  forallb not_button es = true ->
  Call_generateStreamingResponse p ∈ calls (run initial_session es) ->
  trimmed p.
Proof.
  intros Hes.
  assert (Hinv : forall s0,
            (forall inv, inv ∈ inflight s0 -> trimmed (inv_content inv))
            /\ (forall q, Call_generateStreamingResponse q ∈ calls s0 -> trimmed q) ->
            forall q, Call_generateStreamingResponse q ∈ calls (run s0 es) ->
                      trimmed q).
  { clear p. induction es as [|e es IH]; intros s0 [Hfl Hcl]; [done|].
    simpl in Hes. apply andb_prop in Hes as [He Hes].
    simpl. apply (IH Hes). clear IH.
    destruct e as [text|text|i r|i chunk|]; simpl; [|done| | |done].
    - unfold ChatInput_handleSubmit, handleSubmit.
      destruct (isEmpty (trim text)) eqn:Hblank; simpl; [done|].
      destruct (isProcessing (ui s0)); simpl; [done|]. split.
      + intros inv [Hin|Hin]%elem_of_app; [by apply Hfl|].
        apply list_elem_of_singleton in Hin as ->. simpl. split.
        * by destruct (trim text).
        * apply trim_idemp.
      + intros q [Hin|Hin]%elem_of_app; [by apply Hcl|].
        by apply list_elem_of_singleton in Hin.
    - destruct (inflight s0 !! i) as [inv|] eqn:Hi; [|done].
      assert (Hinv0 : trimmed (inv_content inv)).
      { apply Hfl. by eapply list_elem_of_lookup_2. }
      pose proof (fun c => resume_prompts s0 inv r c) as Hcalls.
      pose proof (fun inv' => resume_keeps_closure s0 inv inv' r) as Hkeep.
      assert (Hcl' : forall q, Call_generateStreamingResponse q
                               ∈ calls (resume s0 inv r).1 -> trimmed q).
      { intros q Hq. destruct (Hcalls _ Hq) as [Hq0|[[= ->]|Hno]];
          [by apply Hcl | done | by destruct (Hno q)]. }
      destruct (resume s0 inv r) as [s' [inv'|]]; simpl in *.
      + split; [|done]. intros w Hw.
        apply list_elem_of_lookup in Hw as [j Hj].
        destruct (decide (i = j)) as [->|Hij].
        * rewrite list_lookup_insert_eq in Hj by (by eapply lookup_lt_Some).
          injection Hj as <-. destruct (Hkeep inv' eq_refl) as [_ ->]. done.
        * rewrite list_lookup_insert_ne in Hj by done.
          apply Hfl. by eapply list_elem_of_lookup_2.
      + split; [|done]. intros w Hw. apply Hfl.
        by eapply elem_of_delete_in.
    - destruct (inflight s0 !! i) as [inv|] eqn:Hi; [|done].
      destruct (inv_pc inv) eqn:Hp; try done. simpl.
      split; [|done]. intros w Hw.
      apply list_elem_of_lookup in Hw as [j Hj].
      destruct (decide (i = j)) as [->|Hij].
      + rewrite list_lookup_insert_eq in Hj by (by eapply lookup_lt_Some).
        injection Hj as <-. simpl. apply Hfl. by eapply list_elem_of_lookup_2.
      + rewrite list_lookup_insert_ne in Hj by done.
        apply Hfl. by eapply list_elem_of_lookup_2. }
  apply Hinv. split; [intros inv Hin|intros q Hin]; by apply elem_of_nil in Hin.
Qed.

Lemma form_prompts_are_trimmed_witness :
  forallb not_button
    [FormSubmit (lit " hi "); Settle 0 (R_hasApiKey true);
     Settle 0 (R_createConversation (Some 7))] = true
  /\ Call_generateStreamingResponse (lit "hi")
     ∈ calls (run initial_session
                [FormSubmit (lit " hi "); Settle 0 (R_hasApiKey true);
                 Settle 0 (R_createConversation (Some 7))])
  /\ trimmed (lit "hi").
Proof.
  assert (H : Call_generateStreamingResponse (lit "hi")
              ∈ calls (run initial_session
                         [FormSubmit (lit " hi "); Settle 0 (R_hasApiKey true);
                          Settle 0 (R_createConversation (Some 7))])).
  { apply list_elem_of_lookup. by exists 2%nat. }
  exact (conj eq_refl
           (conj H
              (form_prompts_are_trimmed
                 [FormSubmit (lit " hi "); Settle 0 (R_hasApiKey true);
                  Settle 0 (R_createConversation (Some 7))]
                 (lit "hi") eq_refl H))).
Defined.

Lemma unescape_newlines_eq (c d : N) (t : str) :
  unescape_newlines (c :: d :: t)
  = if (c =? 92) && (d =? 110) then 10 :: unescape_newlines t
    else c :: unescape_newlines (d :: t).
Proof. reflexivity. Qed.

Lemma unescape_newlines_head (s b : str) :
  unescape_newlines s = 110 :: b -> exists t, s = 110 :: t.
Proof.
  destruct s as [|c [|d t]].
  - done.
  - intros [= -> _]. by eexists.
  - rewrite unescape_newlines_eq.
    destruct ((c =? 92) && (d =? 110)); [done|]. intros [= -> _]. by eexists.
Qed.

Lemma unescape_newlines_no_pair (n : nat) :
  forall s : str, (length s <= n)%nat ->
  forall a b, unescape_newlines s <> a ++ 92 :: 110 :: b.
Proof.
  induction n as [|n IH]; intros s Hn a b.
  - destruct s; [|simpl in Hn; lia]. by destruct a.
  - destruct s as [|c [|d t]].
    + by destruct a.
    + by destruct a as [|x [|y a]].
    + rewrite unescape_newlines_eq. simpl in Hn.
      destruct ((c =? 92) && (d =? 110)) eqn:Hcd.
      * destruct a as [|x a]; [done|]. intros [= _ H].
        apply (IH t) in H; [done | lia].
      * destruct a as [|x a].
        -- intros [= -> H]. apply (unescape_newlines_head (d :: t) b) in H as [t' [= -> _]].
           done.
        -- intros [= _ H]. apply (IH (d :: t)) in H; [done | simpl; lia].
Qed.

(** X23.  A message is rendered without escaped line breaks: in the content
    [ChatMessage] passes on, no reverse solidus is followed by the letter
    n, and trimming it again changes nothing. *)
Theorem rendered_content_is_clean (content : str) :
  ~ occurs_in escaped_newline (processedContent content)
  /\ trim (processedContent content) = processedContent content.
Proof.
  split; [|apply trim_idemp].
  intros (a & b & Hab). unfold processedContent in Hab.
  destruct (trim_split (unescape_newlines content)) as (w1 & w2 & Hw).
  rewrite Hab in Hw.
  apply (unescape_newlines_no_pair (length content) content (le_n _)
           (w1 ++ a) (b ++ w2)).
  rewrite Hw. unfold escaped_newline. by rewrite <- !app_assoc.
Qed.

End Properties.

(** * The engine on a sample runtime *)

(** A payload of arrays nested three deep is handed over by a runtime whose
    [ToString] goes three arrays deep; on one that goes two deep the
    [RangeError] is swallowed, nothing is decoded and the call falls back
    on its notice. *)
Example nested_payload_and_the_stack :
  fragments (trace (process_stream (rt := depth_limited 3) [nested_record]))
  = [JArr [JArr [JArr [JStr (lit "a")]]]]
  /\ fragments (trace (process_stream (rt := depth_limited 2) [nested_record]))
     = [JStr fallbackResponse].
Proof. split; vm_compute; reflexivity. Qed.

Section OnASampleRuntime.

#[local] Existing Instance sample_runtime.



Lemma missing_credential_witness :
  fst (getApiKey no_credential) = []
  /\ isProcessing (ui initial_session) = false
  /\ generateStreamingResponse no_credential (lit "hello") (Body split_mid_key)
     = (Rejected (lit "API key not set"),
        [Toast (lit "Please set your Gemini API key first")],
        snd (getApiKey no_credential))
  /\ hasApiKey no_credential = false
  /\ (let s' := run initial_session
                   [Submit (lit "hello");
                    Settle (length (inflight initial_session))
                           (R_hasApiKey (hasApiKey no_credential))] in
      apiKeyModalOpen (ui s') = true
      /\ messages (ui s') = messages (ui initial_session)
      /\ ui s' = setApiKeyModalOpen true (ui initial_session)
      /\ inflight s' = inflight initial_session
      /\ calls s' = calls initial_session ++ [Call_hasApiKey]).
Proof.
  assert (H1 : fst (getApiKey no_credential) = []) by reflexivity.
  assert (H2 : isProcessing (ui initial_session) = false) by reflexivity.
  destruct (missing_credential no_credential (lit "hello") (Body split_mid_key)
              initial_session (lit "hello") H1) as (A & B & C).
  exact (conj H1 (conj H2 (conj A (conj B (C H2))))).
Defined.

Lemma pass_cuts_from_the_front_witness :
  fragments (trace (process_chunk initial_stream (lit "{`candidates`:[")))
  = fragments (trace initial_stream)
  /\ process_chunk initial_stream (lit "{`candidates`:[")
     = received initial_stream (lit "{`candidates`:[").
Proof.
  assert (H : fragments (trace (process_chunk initial_stream (lit "{`candidates`:[")))
              = fragments (trace initial_stream)) by (vm_compute; reflexivity).
  exact (conj H (proj2 (pass_cuts_from_the_front initial_stream
                          (lit "{`candidates`:[")) H)).
Defined.

Lemma resolved_call_has_handed_over_witness :
  (generateStreamingResponse with_credential (lit "hello") (Body [])).1.1
  = Resolved
  /\ emitted_by with_credential (lit "hello") (Body []) <> [].
Proof.
  assert (H : (generateStreamingResponse with_credential (lit "hello")
                 (Body [])).1.1 = Resolved) by reflexivity.
  exact (conj H (resolved_call_has_handed_over with_credential (lit "hello")
                   (Body []) H)).
Defined.

Lemma call_outcome_witness :
  emitted_by with_credential (lit "hello") (Body split_mid_key) <> []
  /\ exists chunks,
       Body split_mid_key = Body chunks
       \/ exists m, Body split_mid_key = BrokenBody chunks m.
Proof.
  assert (H : emitted_by with_credential (lit "hello") (Body split_mid_key) <> [])
    by (vm_compute; discriminate).
  exact (conj H (proj2 (proj2 (call_outcome with_credential (lit "hello")
                                 (Body split_mid_key))) H)).
Defined.

Lemma decoded_text_ends_the_output_witness :
  fst (getApiKey with_credential) <> []
  /\ (exists s, JStr s ∈ fragments (trace (parse_loop framed_two_reads)))
  /\ emitted_by with_credential (lit "hello") (Body framed_two_reads)
     = fragments (trace (parse_loop framed_two_reads)).
Proof.
  assert (H0 : fst (getApiKey with_credential) <> [])
    by (vm_compute; discriminate).
  assert (H1 : exists s, JStr s ∈ fragments (trace (parse_loop framed_two_reads))).
  { exists Hi.
    replace (fragments (trace (parse_loop framed_two_reads)))
      with [JStr Hi; JStr Hi] by (vm_compute; reflexivity).
    apply list_elem_of_here. }
  exact (conj H0 (conj H1 (decoded_text_ends_the_output with_credential
                             (lit "hello") framed_two_reads H0 H1))).
Defined.

Lemma silent_streams_are_chunking_invariant_witness :
  concat undecodable_with_text = concat [concat undecodable_with_text]
  /\ fragments (trace (parse_loop undecodable_with_text)) = []
  /\ fragments (trace (parse_loop [concat undecodable_with_text])) = []
  /\ emitted_by with_credential (lit "hello") (Body undecodable_with_text)
     = emitted_by with_credential (lit "hello")
         (Body [concat undecodable_with_text]).
Proof.
  assert (H0 : concat undecodable_with_text
               = concat [concat undecodable_with_text])
    by (vm_compute; reflexivity).
  assert (H1 : fragments (trace (parse_loop undecodable_with_text)) = [])
    by (vm_compute; reflexivity).
  assert (H2 : fragments (trace (parse_loop [concat undecodable_with_text])) = [])
    by (vm_compute; reflexivity).
  exact (conj H0 (conj H1 (conj H2
           (silent_streams_are_chunking_invariant with_credential (lit "hello")
              _ _ H0 H1 H2)))).
Defined.

End OnASampleRuntime.
